(** * LuaASM to NASM translator ([compile.py]): model and properties

    The translator reads a source text line by line ([LuaASMParser.parse]),
    fills a parser object, and then serialises that object
    ([LuaASMParser.generate_code]).  This file embeds both passes, together
    with the pieces of the Python library they call ([str] methods and the
    [re] patterns), and states the properties of the design document against
    the embedding.

    Scope of the model.  A Python [str] is a sequence of code points; here a
    text is a list of [ascii], read as the code points 0..255 (Latin-1), and
    the character classes of [str.strip], [str.splitlines], [str.lower] and of
    [re] are the ones Python has on that range.  Console output ([print]) is
    not modelled, and neither is the [ast] field of the parser, which is
    created and never read. *)

From Stdlib Require Import List Ascii Bool Arith NArith Lia.
Import ListNotations.

(** ** Texts *)

Definition text := list ascii.

(** Literal syntax: ["abc"] in [text_scope] is the list of its characters. *)
Inductive literal : Set :=
| lit_nil
| lit_cons (c : ascii) (l : literal).

Fixpoint literal_of_bytes (l : list Byte.byte) : literal :=
  match l with
  | [] => lit_nil
  | b :: r => lit_cons (ascii_of_byte b) (literal_of_bytes r)
  end.

Fixpoint bytes_of_literal (l : literal) : list Byte.byte :=
  match l with
  | lit_nil => []
  | lit_cons c r => byte_of_ascii c :: bytes_of_literal r
  end.

Declare Scope text_scope.
Delimit Scope text_scope with text.
#[warnings="-via-type-mismatch,-via-type-remapping"]
String Notation text literal_of_bytes bytes_of_literal
  (via literal mapping [ [nil] => lit_nil, [cons] => lit_cons ]) : text_scope.
Open Scope text_scope.
Open Scope list_scope.

Definition LF : ascii := "010"%char.
Definition CR : ascii := "013"%char.

Fixpoint teqb (a b : text) : bool :=
  match a, b with
  | [], [] => true
  | x :: a', y :: b' => Ascii.eqb x y && teqb a' b'
  | _, _ => false
  end.

Definition isnil (a : text) : bool :=
  match a with [] => true | _ => false end.

(** ** The [str] methods used by the translator *)

Module Str.

Definition code (c : ascii) : N := N_of_ascii c.

Definition between (lo hi : N) (c : ascii) : bool :=
  (lo <=? code c)%N && (code c <=? hi)%N.

(** [str.isspace] on one character. *)
Definition isspace (c : ascii) : bool :=
  between 9 13 c || between 28 32 c || between 133 133 c || between 160 160 c.

(** The line boundaries of [str.splitlines]. *)
Definition islinebreak (c : ascii) : bool :=
  between 10 13 c || between 28 30 c || between 133 133 c.

(** [str.lower] on one character. *)
Definition lower_char (c : ascii) : ascii :=
  if between 65 90 c || (between 192 222 c && negb (between 215 215 c))
  then ascii_of_N (code c + 32)
  else c.

Definition lower (s : text) : text := map lower_char s.

Fixpoint startswith (p s : text) : bool :=
  match p, s with
  | [], _ => true
  | x :: p', y :: s' => Ascii.eqb x y && startswith p' s'
  | _ :: _, [] => false
  end.

Definition endswith (p s : text) : bool := startswith (rev p) (rev s).

Fixpoint dropwhile (f : ascii -> bool) (s : text) : text :=
  match s with
  | [] => []
  | c :: r => if f c then dropwhile f r else s
  end.

Definition lstrip (s : text) : text := dropwhile isspace s.
Definition rstrip (s : text) : text := rev (dropwhile isspace (rev s)).
Definition strip (s : text) : text := rstrip (lstrip s).

(** [s.splitlines()]: a line ends at a boundary character, CR LF counts as
    one boundary, and a text that ends with a boundary has no empty last
    line. *)
Fixpoint splitlines (s : text) : list text :=
  match s with
  | [] => []
  | c :: r =>
      if islinebreak c then
        if Ascii.eqb c CR then
          match r with
          | d :: r' => if Ascii.eqb d LF then [] :: splitlines r'
                       else [] :: splitlines r
          | [] => [] :: splitlines r
          end
        else [] :: splitlines r
      else
        match splitlines r with
        | l :: ls => (c :: l) :: ls
        | [] => [[c]]
        end
  end.

(** [s.split(sep)] for a separator of one character. *)
Fixpoint split (sep : ascii) (s : text) : list text :=
  match s with
  | [] => [[]]
  | c :: r =>
      if Ascii.eqb c sep then [] :: split sep r
      else
        match split sep r with
        | l :: ls => (c :: l) :: ls
        | [] => [[c]]
        end
  end.

(** [sep.join(parts)]. *)
Fixpoint join (sep : text) (parts : list text) : text :=
  match parts with
  | [] => []
  | [p] => p
  | p :: rest => p ++ sep ++ join sep rest
  end.

(** The slice [s[4:-1]]. *)
Definition slice_4_m1 (s : text) : text := removelast (skipn 4 s).

End Str.

(** ** The [re] patterns: a backtracking matcher

    The patterns of [compile.py] use literals, the anchors [^] and [$],
    greedy repetition of a character class ("\w+", ".*", ".+", "\d+",
    "[a-fA-F0-9]+"), alternation and capture groups.  [run] lists every way a
    pattern matches at the head of a text, in the order in which [re]'s
    backtracking tries them, so that [re.match] is the first element. *)

Module Re.

Inductive cclass : Type :=
| Word                                   (* \w *)
| Digit                                  (* \d *)
| Dot                                    (* .  *)
| Ranges (rs : list (ascii * ascii)).    (* [a-fA-F0-9] *)

Definition is_word (c : ascii) : bool :=
  Str.between 48 57 c || Str.between 65 90 c || Str.between 95 95 c
  || Str.between 97 122 c
  || Str.between 170 170 c || Str.between 178 179 c || Str.between 181 181 c
  || Str.between 185 186 c || Str.between 188 190 c
  || Str.between 192 214 c || Str.between 216 246 c || Str.between 248 255 c.

Definition is_digit (c : ascii) : bool := Str.between 48 57 c.

Definition is_dot (c : ascii) : bool := negb (Ascii.eqb c LF).

Definition accepts (k : cclass) (c : ascii) : bool :=
  match k with
  | Word => is_word c
  | Digit => is_digit c
  | Dot => is_dot c
  | Ranges rs =>
      existsb (fun r => Str.between (Str.code (fst r)) (Str.code (snd r)) c) rs
  end.

Inductive regex : Type :=
| Lit (t : text)                  (* literal characters *)
| Bol                             (* ^ *)
| Eol                             (* $ *)
| Rep (k : cclass) (least : nat)  (* k* when least = 0, k+ when least = 1 *)
| Seq (r1 r2 : regex)
| Alt (r1 r2 : regex)             (* r1|r2 *)
| Grp (r : regex).                (* (r) *)

(** Length of the longest prefix of [s] made of characters of [k]. *)
Fixpoint span (k : cclass) (s : text) : nat :=
  match s with
  | c :: r => if accepts k c then S (span k r) else 0
  | [] => 0
  end.

(** [countdown n least] is [n; n-1; ...; least]: a greedy repetition takes
    the longest run first and gives characters back one at a time. *)
Fixpoint countdown (n least : nat) : list nat :=
  if n <? least then []
  else match n with
       | 0 => [0]
       | S n' => n :: countdown n' least
       end.

(** One way of matching: the matched text, the texts of the groups closed
    inside it (in order of their opening parenthesis), and what is left. *)
Definition way : Type := text * list text * text.

(** [run r bos s]: all matches of [r] at the head of [s]; [bos] tells
    whether the head of [s] is the beginning of the subject string. *)
Fixpoint run (r : regex) (bos : bool) (s : text) : list way :=
  match r with
  | Lit t =>
      if Str.startswith t s then [(t, [], skipn (length t) s)] else []
  | Bol => if bos then [([], [], s)] else []
  | Eol =>
      match s with
      | [] => [([], [], s)]
      | [c] => if Ascii.eqb c LF then [([], [], s)] else []
      | _ => []
      end
  | Rep k least =>
      map (fun n => (firstn n s, [], skipn n s)) (countdown (span k s) least)
  | Seq r1 r2 =>
      flat_map
        (fun w1 : way =>
           let '(m1, g1, s1) := w1 in
           map (fun w2 : way =>
                  let '(m2, g2, s2) := w2 in (m1 ++ m2, g1 ++ g2, s2))
               (run r2 (bos && isnil m1) s1))
        (run r1 bos s)
  | Alt r1 r2 => run r1 bos s ++ run r2 bos s
  | Grp r1 =>
      map (fun w : way => let '(m, g, s') := w in (m, m :: g, s'))
          (run r1 bos s)
  end.

(** [re.match(pattern, line)]: the groups of the first match, or [None]. *)
Definition re_match (r : regex) (line : text) : option (list text) :=
  match run r true line with
  | (_, g, _) :: _ => Some g
  | [] => None
  end.

(** A match object is true, [None] is false. *)
Definition matched (m : option (list text)) : bool :=
  match m with Some _ => true | None => false end.

(** [m.group(i)] for [i >= 1]; the patterns below close every group on
    every path, so the default is never used. *)
Definition group (g : list text) (i : nat) : text := nth (i - 1) g [].

End Re.

Import Re.

Infix ">>" := Seq (at level 61, right associativity).

(** The patterns, in the order in which they occur in [compile.py]. *)

(** Pattern "^\w+\(.*\)$". *)
Definition call_pattern : regex :=
  Bol >> Rep Word 1 >> Lit "(" >> Rep Dot 0 >> Lit ")" >> Eol.

(** Pattern "import (\w+) from (\w+)". *)
Definition single_import_pattern : regex :=
  Lit "import " >> Grp (Rep Word 1) >> Lit " from " >> Grp (Rep Word 1).

(** Pattern "import \[(.+)\] from (\w+)". *)
Definition multi_import_pattern : regex :=
  Lit "import [" >> Grp (Rep Dot 1) >> Lit "] from " >> Grp (Rep Word 1).

(** Pattern "local (\w+) = import (\w+) from (\w+)". *)
Definition local_import_pattern : regex :=
  Lit "local " >> Grp (Rep Word 1) >> Lit " = import " >> Grp (Rep Word 1)
  >> Lit " from " >> Grp (Rep Word 1).

(** Pattern "#\!arch\[(.+)\]". *)
Definition architecture_pattern : regex :=
  Lit "#!arch[" >> Grp (Rep Dot 1) >> Lit "]".

Definition hexdigits : cclass :=
  Ranges [("a"%char, "f"%char); ("A"%char, "F"%char); ("0"%char, "9"%char)].

(** Pattern "#\!\[(start|pad|sign)\((0x[a-fA-F0-9]+|\d+)\)\]". *)
Definition directive_pattern : regex :=
  Lit "#![" >> Grp (Alt (Lit "start") (Alt (Lit "pad") (Lit "sign")))
  >> Lit "(" >> Grp (Alt (Lit "0x" >> Rep hexdigits 1) (Rep Digit 1))
  >> Lit ")]".

(** Pattern "function (\w+)\(( .* )\)", without the two spaces around the
    repetition (they keep this comment well formed). *)
Definition function_pattern : regex :=
  Lit "function " >> Grp (Rep Word 1) >> Lit "(" >> Grp (Rep Dot 0) >> Lit ")".

(** ** Exceptions and dictionaries *)

Inductive exn : Type :=
| SyntaxError (msg : text)
| KeyError (key : text)
| TypeError.

Inductive result (A : Type) : Type :=
| Ok (a : A)
| Raise (e : exn).

Arguments Ok {A} a.
Arguments Raise {A} e.

Definition bind {A B : Type} (x : result A) (f : A -> result B) : result B :=
  match x with
  | Ok a => f a
  | Raise e => Raise e
  end.

Notation "'do' x <- e1 ; e2" := (bind e1 (fun x => e2))
  (at level 10, x name, e1 at level 100, e2 at level 200).

(** A Python [dict] keeps its keys in insertion order; assigning to a key
    that is present replaces the value where it stands. *)
Definition dict (V : Type) : Type := list (text * V).

Fixpoint dict_set {V : Type} (d : dict V) (k : text) (v : V) : dict V :=
  match d with
  | [] => [(k, v)]
  | (k', v') :: d' =>
      if teqb k' k then (k', v) :: d' else (k', v') :: dict_set d' k v
  end.

Fixpoint dict_get {V : Type} (d : dict V) (k : text) : option V :=
  match d with
  | [] => None
  | (k', v') :: d' => if teqb k' k then Some v' else dict_get d' k
  end.

Definition dict_values {V : Type} (d : dict V) : list V := map snd d.

(** [d[k]] raises [KeyError] when the key is absent. *)
Definition dict_item {V : Type} (d : dict V) (k : text) : result V :=
  match dict_get d k with
  | Some v => Ok v
  | None => Raise (KeyError k)
  end.

(** ** The parser object *)

(** The dictionary [{"name": ..., "params": ..., "body": ...}] built by
    [_parse_function_definition]. *)
Record function_def : Type := {
  name : text;
  params : list text;
  body : list text
}.

Record LuaASMParser : Type := {
  architecture : option text;
  directives : dict (option text);
  functions : dict function_def;
  current_function : option function_def;
  code_outside_functions : list text;
  imports : dict text;
  inline_asm : list text
}.

(** [LuaASMParser.__init__] *)
Definition init : LuaASMParser := {|
  architecture := None;
  directives := [("pad", None); ("sign", None); ("start", None)];
  functions := [];
  current_function := None;
  code_outside_functions := [];
  imports := [];
  inline_asm := []
|}.

Definition set_architecture (self : LuaASMParser) (a : option text) :=
  {| architecture := a;
     directives := directives self;
     functions := functions self;
     current_function := current_function self;
     code_outside_functions := code_outside_functions self;
     imports := imports self;
     inline_asm := inline_asm self |}.

Definition set_directives (self : LuaASMParser) (d : dict (option text)) :=
  {| architecture := architecture self;
     directives := d;
     functions := functions self;
     current_function := current_function self;
     code_outside_functions := code_outside_functions self;
     imports := imports self;
     inline_asm := inline_asm self |}.

Definition set_functions (self : LuaASMParser) (f : dict function_def) :=
  {| architecture := architecture self;
     directives := directives self;
     functions := f;
     current_function := current_function self;
     code_outside_functions := code_outside_functions self;
     imports := imports self;
     inline_asm := inline_asm self |}.

Definition set_current_function (self : LuaASMParser)
    (c : option function_def) :=
  {| architecture := architecture self;
     directives := directives self;
     functions := functions self;
     current_function := c;
     code_outside_functions := code_outside_functions self;
     imports := imports self;
     inline_asm := inline_asm self |}.

Definition set_code_outside_functions (self : LuaASMParser) (c : list text) :=
  {| architecture := architecture self;
     directives := directives self;
     functions := functions self;
     current_function := current_function self;
     code_outside_functions := c;
     imports := imports self;
     inline_asm := inline_asm self |}.

Definition set_imports (self : LuaASMParser) (i : dict text) :=
  {| architecture := architecture self;
     directives := directives self;
     functions := functions self;
     current_function := current_function self;
     code_outside_functions := code_outside_functions self;
     imports := i;
     inline_asm := inline_asm self |}.

Definition set_inline_asm (self : LuaASMParser) (a : list text) :=
  {| architecture := architecture self;
     directives := directives self;
     functions := functions self;
     current_function := current_function self;
     code_outside_functions := code_outside_functions self;
     imports := imports self;
     inline_asm := a |}.


(** ** The line rules *)

(** The three patterns are tried on every call; the first that matched
    decides.  Each assignment [self.imports[k] = v] is a [dict_set]. *)
Definition _parse_import_definition (self : LuaASMParser) (line : text)
    : result LuaASMParser :=
  let single_import := re_match single_import_pattern line in
  let multi_import := re_match multi_import_pattern line in
  let local_import := re_match local_import_pattern line in
  match single_import, multi_import, local_import with
  | Some g, _, _ =>
      let func_name := group g 1 in
      let module_name := group g 2 in
      Ok (set_imports self (dict_set (imports self) func_name module_name))
  | None, Some g, _ =>
      let funcs := map Str.strip (Str.split ","%char (group g 1)) in
      let module_name := group g 2 in
      Ok (set_imports self
            (fold_left (fun d func => dict_set d func module_name)
                       funcs (imports self)))
  | None, None, Some g =>
      let local_var := group g 1 in
      let func_name := group g 2 in
      let module_name := group g 3 in
      Ok (set_imports self
            (dict_set (imports self) local_var
                      (module_name ++ "." ++ func_name)))
  | None, None, None =>
      Raise (SyntaxError ("Invalid import statement: " ++ line))
  end.

Definition _parse_architecture (self : LuaASMParser) (line : text)
    : result LuaASMParser :=
  match re_match architecture_pattern line with
  | Some g => Ok (set_architecture self (Some (group g 1)))
  | None => Raise (SyntaxError ("Invalid architecture definition: " ++ line))
  end.

(** In [parse] the result is the new parser object; in [generate_code] the
    call is used for its return value, which is [None]. *)
Definition _parse_inline_asm (self : LuaASMParser) (line : text)
    : result LuaASMParser :=
  if Str.startswith "asm(" line && Str.endswith ")" line then
    let asm_code := Str.strip (Str.slice_4_m1 line) in
    Ok (set_inline_asm self (inline_asm self ++ [asm_code]))
  else Raise (SyntaxError ("Invalid inline assembly format: " ++ line)).

Definition _parse_directive (self : LuaASMParser) (line : text)
    : result LuaASMParser :=
  match re_match directive_pattern line with
  | Some g =>
      let directive := group g 1 in
      let value := group g 2 in
      Ok (set_directives self (dict_set (directives self) directive (Some value)))
  | None => Raise (SyntaxError ("Invalid directive format: " ++ line))
  end.

Definition _parse_function_definition (self : LuaASMParser) (line : text)
    : result LuaASMParser :=
  match re_match function_pattern line with
  | Some g =>
      let func_name := group g 1 in
      let params :=
        if isnil (group g 2) then []
        else map Str.strip (Str.split ","%char (group g 2)) in
      Ok (set_current_function self
            (Some {| name := func_name; params := params; body := [] |}))
  | None => Raise (SyntaxError ("Invalid function definition: " ++ line))
  end.

(** A function dictionary always has its three keys, so [if
    self.current_function] is the test for [None]. *)
Definition _end_function_definition (self : LuaASMParser) : LuaASMParser :=
  match current_function self with
  | Some f =>
      set_current_function
        (set_functions self (dict_set (functions self) (name f) f)) None
  | None => self
  end.

Definition _parse_function_call (self : LuaASMParser) (line : text)
    : LuaASMParser :=
  let func_call := Str.strip line in
  match current_function self with
  | Some f =>
      set_current_function self
        (Some {| name := name f; params := params f;
                 body := body f ++ [func_call] |})
  | None =>
      set_code_outside_functions self (code_outside_functions self ++ [func_call])
  end.

Definition _parse_executable_code (self : LuaASMParser) (line : text)
    : LuaASMParser :=
  set_code_outside_functions self (code_outside_functions self ++ [Str.strip line]).

(** ** [parse] *)

(** The [if]/[elif] chain of the loop body, for a stripped, non-empty line. *)
Definition classify (self : LuaASMParser) (line : text) : result LuaASMParser :=
  if Str.startswith "import" line then _parse_import_definition self line
  else if Str.startswith "#!arch[" line then _parse_architecture self line
  else if Str.startswith "#![" line then _parse_directive self line
  else if Str.startswith "function" line then
    _parse_function_definition self line
  else if teqb line "end" then Ok (_end_function_definition self)
  else if matched (re_match call_pattern line) then
    Ok (_parse_function_call self line)
  else if Str.startswith "asm(" line && Str.endswith ")" line then
    _parse_inline_asm self line
  else Ok (_parse_executable_code self line).

(** The [for] loop: each line is stripped, blank lines are skipped, and the
    first exception leaves the loop. *)
Fixpoint parse_lines (self : LuaASMParser) (lines : list text)
    : result LuaASMParser :=
  match lines with
  | [] => Ok self
  | l :: rest =>
      let line := Str.strip l in
      if isnil line then parse_lines self rest
      else do self' <- classify self line; parse_lines self' rest
  end.

Definition parse (self : LuaASMParser) (code : text) : result LuaASMParser :=
  parse_lines self (Str.splitlines (Str.strip code)).

(** ** [generate_code] *)

(** The [if]/[elif] chain on [self.architecture.lower()]. *)
Definition bits_of (arch : text) : text :=
  if teqb (Str.lower arch) "x86" then "BITS 32"
  else if teqb (Str.lower arch) "x64" then "BITS 64"
  else if teqb (Str.lower arch) "x16" then "BITS 16"
  else "BITS 32".

(** An element of [output] is a string, or the [None] that
    [_parse_inline_asm] returns. *)
Definition out_line : Type := option text.

(** [output] after the bit-width header. *)
Definition emit_bits (self : LuaASMParser) (output : list out_line)
    : list out_line :=
  match architecture self with
  | Some (c :: a) => output ++ [Some (bits_of (c :: a))]
  | _ => output
  end.

(** [output] after [ORG], the entry label and its five fixed lines. *)
Definition emit_start (self : LuaASMParser) (output : list out_line)
    : result (list out_line) :=
  do start <- dict_item (directives self) "start";
  let output :=
    match start with
    | Some (c :: v) => output ++ [Some ("ORG " ++ c :: v)]
    | _ => output
    end in
  Ok (output ++ [Some "_start:"; Some "  push 2"; Some "  push 3";
                 Some "  push 5"; Some "  call add"; Some "  add esp, 12"]).

(** The loop over [self.code_outside_functions]. *)
Definition emit_free (self : LuaASMParser) (output : list out_line)
    : list out_line :=
  fold_left (fun out line => out ++ [Some ("  " ++ line)])
            (code_outside_functions self) output.

(** The loop over [self.functions.values()]. *)
Definition emit_functions (self : LuaASMParser) (output : list out_line)
    : list out_line :=
  fold_left
    (fun out func =>
       out ++ [Some (name func ++ ":"); Some "  mov eax, [esp + 4]";
               Some "  add eax, [esp + 8]"; Some "  add eax, [esp + 12]";
               Some "  ret"])
    (dict_values (functions self)) output.

(** The loop [for asm in self.inline_asm]: the call [_parse_inline_asm(asm)]
    appends to the list that is being iterated, so the loop also visits the
    entries it adds.  [i] is the index of the iterator; the loop ends when
    [i] is past the end of the list as it is then.  [None] is for a run that
    needs more than [fuel] iterations. *)
Fixpoint emit_inline_asm (fuel : nat) (self : LuaASMParser) (i : nat)
    (output : list out_line) : option (result (LuaASMParser * list out_line)) :=
  match fuel with
  | 0 => None
  | S fuel' =>
      match nth_error (inline_asm self) i with
      | None => Some (Ok (self, output))
      | Some asm =>
          match _parse_inline_asm self asm with
          | Ok self' => emit_inline_asm fuel' self' (S i) (output ++ [None])
          | Raise e => Some (Raise e)
          end
      end
  end.

(** [output] after the padding and signature lines. *)
Definition emit_trailer (self : LuaASMParser) (output : list out_line)
    : result (list out_line) :=
  do pad <- dict_item (directives self) "pad";
  let output :=
    match pad with
    | Some (c :: v) => output ++ [Some ("  times " ++ (c :: v) ++ " - ($ - $$) db 0")]
    | _ => output
    end in
  do sign <- dict_item (directives self) "sign";
  let output :=
    match sign with
    | Some (c :: v) => output ++ [Some ("  dw " ++ (c :: v) ++ "  ; Signature")]
    | _ => output
    end in
  Ok output.

(** ["\n".join(output)] raises [TypeError] on an element that is not a
    string. *)
Fixpoint all_strings (output : list out_line) : result (list text) :=
  match output with
  | [] => Ok []
  | Some s :: rest => do l <- all_strings rest; Ok (s :: l)
  | None :: _ => Raise TypeError
  end.

Definition join_lines (output : list out_line) : result text :=
  do l <- all_strings output; Ok (Str.join [LF] l).

Definition generate_code_fuel (fuel : nat) (self : LuaASMParser)
    : option (result text) :=
  let output := emit_bits self [] in
  match emit_start self output with
  | Raise e => Some (Raise e)
  | Ok output =>
      let output := emit_free self output in
      let output := emit_functions self output in
      match emit_inline_asm fuel self 0 output with
      | None => None
      | Some (Raise e) => Some (Raise e)
      | Some (Ok (self', output)) =>
          Some (do output <- emit_trailer self' output; join_lines output)
      end
  end.

(** Every pass of the inline-assembly loop that does not raise replaces an
    entry by a shorter one, so this many iterations are enough
    ([generate_code_total] below). *)
Definition weight (l : list text) : nat :=
  fold_right (fun e n => S (length e) + n) 0 l.

Definition generate_code (self : LuaASMParser) : option (result text) :=
  generate_code_fuel (S (weight (inline_asm self))) self.

(** ** [main] *)

(** [str.encode('utf-8')] on code points below 256. *)
Definition utf8 (s : text) : list ascii :=
  flat_map
    (fun c =>
       if (Str.code c <? 128)%N then [c]
       else [ascii_of_N (192 + Str.code c / 64);
             ascii_of_N (128 + Str.code c mod 64)])
    s.

(** What a run of [main] leaves behind once the input file has been read:
    the exception that ended it, or the bytes handed to [f.write].  The
    input is the text that [f.read()] returns; opening, reading and decoding
    the input file and opening and writing the output file, with the
    exceptions they can raise, are outside the model. *)
Inductive outcome : Type :=
| ParseFailed (e : exn)       (* raised by [parser.parse]; nothing after it runs *)
| GenerateFailed (e : exn)    (* raised by [parser.generate_code] *)
| Written (bytes : list ascii).

Definition main (luaasm_code : text) : option outcome :=
  match parse init luaasm_code with
  | Raise e => Some (ParseFailed e)
  | Ok parser =>
      match generate_code parser with
      | None => None
      | Some (Raise e) => Some (GenerateFailed e)
      | Some (Ok output_code) => Some (Written (utf8 output_code))
      end
  end.

(** ** Parser objects that [generate_code] can read

    [generate_code] indexes [self.directives] with the three directive names;
    [__init__] creates the three keys and no rule removes a key. *)
Definition has_key {V : Type} (d : dict V) (k : text) : bool :=
  match dict_get d k with Some _ => true | None => false end.

Definition has_directives (self : LuaASMParser) : bool :=
  forallb (has_key (directives self)) ["pad"; "sign"; "start"].

(** The test of [_parse_inline_asm]. *)
Definition in_envelope (line : text) : bool :=
  Str.startswith "asm(" line && Str.endswith ")" line.

(** ** The sections of the output

    The lines that [generate_code] joins when the inline-assembly loop has
    nothing to do, section by section in the order of the appends. *)
Definition directive_value (self : LuaASMParser) (k : text) : option text :=
  match dict_get (directives self) k with
  | Some (Some (c :: v)) => Some (c :: v)
  | _ => None
  end.

Definition section_bits (self : LuaASMParser) : list text :=
  match architecture self with
  | Some (c :: a) => [bits_of (c :: a)]
  | _ => []
  end.

Definition section_org (self : LuaASMParser) : list text :=
  match directive_value self "start" with
  | Some v => ["ORG " ++ v]
  | None => []
  end.

Definition section_entry : list text :=
  ["_start:"; "  push 2"; "  push 3"; "  push 5"; "  call add";
   "  add esp, 12"].

Definition section_free (self : LuaASMParser) : list text :=
  map (fun line => "  " ++ line) (code_outside_functions self).

(** A label line and the fixed body of four lines. *)
Definition label_and_fixed_body (label : text) : list text :=
  [label ++ ":"; "  mov eax, [esp + 4]"; "  add eax, [esp + 8]";
   "  add eax, [esp + 12]"; "  ret"].

Definition section_functions (fs : dict function_def) : list text :=
  flat_map (fun f => label_and_fixed_body (name f)) (dict_values fs).

Definition section_pad (self : LuaASMParser) : list text :=
  match directive_value self "pad" with
  | Some v => ["  times " ++ v ++ " - ($ - $$) db 0"]
  | None => []
  end.

Definition section_sign (self : LuaASMParser) : list text :=
  match directive_value self "sign" with
  | Some v => ["  dw " ++ v ++ "  ; Signature"]
  | None => []
  end.

Definition sections (self : LuaASMParser) : list text :=
  section_bits self ++ section_org self ++ section_entry
  ++ section_free self ++ section_functions (functions self)
  ++ section_pad self ++ section_sign self.

(** ** Well-formed pieces of a line

    An identifier is a non-empty run of word characters (what "\w+" takes);
    a numeral is [0x] and hexadecimal digits, or decimal digits. *)
Definition is_identifier (w : text) : bool :=
  negb (isnil w) && forallb is_word w.

Definition is_hex_numeral (v : text) : bool :=
  Str.startswith "0x" v
  && negb (isnil (skipn 2 v)) && forallb (accepts hexdigits) (skipn 2 v).

Definition is_decimal_numeral (v : text) : bool :=
  negb (isnil v) && forallb is_digit v.

Definition is_numeral (v : text) : bool :=
  is_hex_numeral v || is_decimal_numeral v.

(** The end of the multi-import pattern, "\] from (\w+)", and the test that
    it matches somewhere in a text. *)
Definition module_clause : regex := Lit "] from " >> Grp (Rep Word 1).

Fixpoint has_module_clause (s : text) : bool :=
  match s with
  | [] => false
  | _ :: r =>
      negb (match run module_clause false s with [] => true | _ => false end)
      || has_module_clause r
  end.

(** A line between [function ...] and [end] that neither opens nor closes a
    function, and on which no rule raises. *)
Definition plain_line (l : text) : Prop :=
  Str.startswith "function" (Str.strip l) = false
  /\ Str.strip l <> "end"
  /\ forall self, exists self', classify self (Str.strip l) = Ok self'.

(** ** What the parser keeps true of its tables *)

(** A directive value is [None] until set, and then a non-empty text. *)
Definition set_or_unset (v : option text) : Prop :=
  match v with
  | None => True
  | Some v => v <> []
  end.

(** The directive table has its three keys, in the order of [__init__]. *)
Definition directives_wf (d : dict (option text)) : Prop :=
  map fst d = ["pad"; "sign"; "start"]
  /\ Forall (fun kv => set_or_unset (snd kv)) d.

(** Every entry of the function table stands under its own name, an
    identifier, and no key occurs twice; the open function, if any, has an
    identifier for name. *)
Definition functions_wf (self : LuaASMParser) : Prop :=
  Forall (fun kv => fst kv = name (snd kv) /\ is_identifier (fst kv) = true)
         (functions self)
  /\ NoDup (map fst (functions self))
  /\ match current_function self with
     | Some f => is_identifier (name f) = true
     | None => True
     end.

(** ** Call lines *)

(** A callee name that the rules before the call pattern let through: an
    identifier that does not begin with [import] or [function]. *)
Definition is_callee (c : text) : bool :=
  is_identifier c
  && negb (Str.startswith "import" c) && negb (Str.startswith "function" c).

(** The line of a call, from the callee and the text between the
    parentheses. *)
Definition call_text (ca : text * text) : text :=
  fst ca ++ "(" ++ snd ca ++ ")".

(** ** What [generate_code] reads

    Two parser objects that agree on the five fields that [generate_code]
    and [_parse_inline_asm] read; [imports] and [current_function] are
    free. *)
Definition same_for_generation (s1 s2 : LuaASMParser) : Prop :=
  architecture s1 = architecture s2
  /\ directives s1 = directives s2
  /\ functions s1 = functions s2
  /\ code_outside_functions s1 = code_outside_functions s2
  /\ inline_asm s1 = inline_asm s2.

(** * Properties *)

(** ** Texts *)

Lemma teqb_refl (a : text) : teqb a a = true.
Proof.
  induction a as [|c a IH]; simpl; [reflexivity|].
  now rewrite Ascii.eqb_refl.
Qed.

Lemma teqb_eq (a b : text) : teqb a b = true <-> a = b.
Proof.
  split; [|intros ->; apply teqb_refl].
  revert b; induction a as [|c a IH]; intros [|d b]; simpl; try easy.
  intros H. apply andb_true_iff in H as [H1 H2].
  apply Ascii.eqb_eq in H1. apply IH in H2. now subst.
Qed.

Lemma teqb_neq (a b : text) : teqb a b = false <-> a <> b.
Proof.
  split.
  - intros H E. apply teqb_eq in E. congruence.
  - intros H. destruct (teqb a b) eqn:E; [|reflexivity].
    apply teqb_eq in E. contradiction.
Qed.

Lemma startswith_app (p s : text) : Str.startswith p (p ++ s) = true.
Proof.
  induction p as [|c p IH]; simpl; [reflexivity|].
  now rewrite Ascii.eqb_refl.
Qed.

Lemma startswith_inv (p s : text) :
  Str.startswith p s = true -> s = p ++ skipn (length p) s.
Proof.
  revert s; induction p as [|c p IH]; intros [|d s]; simpl; try easy.
  intros H. apply andb_true_iff in H as [H1 H2].
  apply Ascii.eqb_eq in H1. subst d. f_equal. now apply IH.
Qed.

Lemma endswith_inv (p s : text) :
  Str.endswith p s = true -> exists s0, s = s0 ++ p.
Proof.
  unfold Str.endswith. intros H. apply startswith_inv in H.
  exists (rev (skipn (length (rev p)) (rev s))).
  rewrite <- (rev_involutive s) at 1. rewrite H at 1.
  now rewrite rev_app_distr, rev_involutive.
Qed.

Lemma endswith_app (p s : text) : Str.endswith p (s ++ p) = true.
Proof.
  unfold Str.endswith. rewrite rev_app_distr. apply startswith_app.
Qed.

Lemma strip_between (c d : ascii) (s : text) :
  Str.isspace c = false -> Str.isspace d = false ->
  Str.strip (c :: s ++ [d]) = c :: s ++ [d].
Proof.
  intros Hc Hd. unfold Str.strip, Str.lstrip. cbn [Str.dropwhile].
  rewrite Hc. unfold Str.rstrip.
  change (c :: s ++ [d]) with ((c :: s) ++ [d]).
  rewrite rev_app_distr. cbn [rev app Str.dropwhile]. rewrite Hd.
  cbn [rev]. now rewrite rev_app_distr, rev_involutive.
Qed.

(** ** The claims on single inputs *)

(** C1.  A line [local <alias> = import <name> from <module>] does not
    begin with [import], so [parse] never hands it to the import rule: every
    line that begins with [local ] is recorded as a free statement and the
    imports table is left as it was.  On [local x = import f from m] the
    parser ends with an empty imports table. *)
Theorem local_import_not_bound :
  (forall self rest,
      classify self ("local " ++ rest)
      = Ok (_parse_executable_code self ("local " ++ rest)))
  /\ parse init "local x = import f from m"
     = Ok (set_code_outside_functions init ["local x = import f from m"])
  /\ imports (set_code_outside_functions init ["local x = import f from m"])
     = [].
Proof.
  split; [intros self rest; reflexivity|].
  split; reflexivity.
Qed.

(** C2.  The free-statement rule appends to [code_outside_functions]
    whether or not a function is open.  In [function f()], [mov eax, 1],
    [end] the middle line is seen while [f] is open and lands in
    [code_outside_functions]; the body of [f] stays empty. *)
Theorem statement_in_open_function_recorded_outside :
  (forall self line,
      code_outside_functions (_parse_executable_code self line)
      = code_outside_functions self ++ [Str.strip line]
      /\ current_function (_parse_executable_code self line)
         = current_function self)
  /\ parse init ("function f()" ++ [LF] ++ "mov eax, 1" ++ [LF] ++ "end")
     = Ok {| architecture := None;
             directives := [("pad", None); ("sign", None); ("start", None)];
             functions := [("f", {| name := "f"; params := []; body := [] |})];
             current_function := None;
             code_outside_functions := ["mov eax, 1"];
             imports := [];
             inline_asm := [] |}.
Proof.
  split; [intros self line; split; reflexivity|].
  vm_compute. reflexivity.
Qed.

(** C3.  The inline-assembly rule does strip the envelope and trim what is
    inside, but [parse] does not reach it: the line [asm(nop)] begins with
    [asm(] and ends with [)], and the parser records it whole as a
    call-shaped free statement; nothing is appended to [inline_asm]. *)
Theorem asm_line_recorded_as_call :
  (forall self mid,
      _parse_inline_asm self ("asm(" ++ mid ++ ")")
      = Ok (set_inline_asm self (inline_asm self ++ [Str.strip mid])))
  /\ parse init "asm(nop)"
     = Ok {| architecture := None;
             directives := [("pad", None); ("sign", None); ("start", None)];
             functions := [];
             current_function := None;
             code_outside_functions := ["asm(nop)"];
             imports := [];
             inline_asm := [] |}.
Proof.
  split; [|vm_compute; reflexivity].
  intros self mid. unfold _parse_inline_asm.
  change (Str.startswith "asm(" ("asm(" ++ mid ++ ")")) with true.
  replace (Str.endswith ")" ("asm(" ++ mid ++ ")")) with true.
  - cbn [andb]. unfold Str.slice_4_m1.
    change (skipn 4 ("asm(" ++ mid ++ ")")) with (mid ++ ")").
    now rewrite removelast_last.
  - symmetry. rewrite (app_assoc "asm(" mid ")"). apply endswith_app.
Qed.

(** ** Lines *)

Lemma dropwhile_incl (f : ascii -> bool) (s : text) (c : ascii) :
  In c (Str.dropwhile f s) -> In c s.
Proof.
  induction s as [|d s IH]; simpl; [easy|].
  destruct (f d); [intros H; right; now apply IH | easy].
Qed.

Lemma strip_incl (s : text) (c : ascii) : In c (Str.strip s) -> In c s.
Proof.
  unfold Str.strip, Str.rstrip, Str.lstrip. intros H.
  apply (proj2 (in_rev _ _)) in H. apply dropwhile_incl in H.
  apply (proj2 (in_rev _ _)) in H. now apply dropwhile_incl in H.
Qed.

(** No line of [splitlines] holds a boundary character. *)
Lemma splitlines_bounded (n : nat) :
  forall s, length s <= n ->
  forall l, In l (Str.splitlines s) ->
  forall c, In c l -> Str.islinebreak c = false.
Proof.
  induction n as [|n IH]; intros s Hn l Hl c Hc.
  - destruct s; simpl in *; [contradiction | lia].
  - destruct s as [|a r]; simpl in Hl; [contradiction|].
    simpl in Hn. apply le_S_n in Hn.
    destruct (Str.islinebreak a) eqn:Ea.
    + assert (Hr : In l ([] :: Str.splitlines r) ->
                   Str.islinebreak c = false).
      { intros [<-|H]; [contradiction|]. now apply (IH r Hn l H). }
      destruct (Ascii.eqb a CR); [|now apply Hr].
      destruct r as [|d r']; [now apply Hr|].
      destruct (Ascii.eqb d LF); [|now apply Hr].
      destruct Hl as [<-|H]; [contradiction|].
      apply (IH r') with (l := l); [simpl in Hn; lia | exact H | exact Hc].
    + destruct (Str.splitlines r) as [|l0 ls] eqn:Er.
      * destruct Hl as [<-|[]]. destruct Hc as [<-|[]]. exact Ea.
      * destruct Hl as [<-|Hl].
        -- destruct Hc as [<-|Hc]; [exact Ea|].
           apply (IH r Hn l0); [rewrite Er; now left | exact Hc].
        -- apply (IH r Hn l); [rewrite Er; now right | exact Hc].
Qed.

Lemma splitlines_no_LF (s l : text) : In l (Str.splitlines s) -> ~ In LF l.
Proof.
  intros Hl Hc.
  now pose proof (splitlines_bounded (length s) s (le_n _) l Hl LF Hc).
Qed.

(** ** Matching *)

Lemma matched_of_way (r : regex) (s : text) (w : way) :
  In w (run r true s) -> matched (re_match r s) = true.
Proof.
  unfold re_match. destruct (run r true s) as [|[[m g] s'] t]; [easy|reflexivity].
Qed.

Lemma in_run_seq (r1 r2 : regex) (bos : bool) (s : text)
    (m1 : text) (g1 : list text) (s1 : text)
    (m2 : text) (g2 : list text) (s2 : text) :
  In (m1, g1, s1) (run r1 bos s) ->
  In (m2, g2, s2) (run r2 (bos && isnil m1) s1) ->
  In (m1 ++ m2, g1 ++ g2, s2) (run (r1 >> r2) bos s).
Proof.
  intros H1 H2. simpl. apply in_flat_map.
  exists (m1, g1, s1). split; [exact H1|].
  apply in_map_iff. now exists (m2, g2, s2).
Qed.

Lemma in_run_lit (t s : text) (bos : bool) :
  In (t, [], s) (run (Lit t) bos (t ++ s)).
Proof.
  simpl. rewrite startswith_app. left.
  now rewrite skipn_app, skipn_all, Nat.sub_diag.
Qed.

Lemma countdown_eq (n least : nat) :
  countdown n least
  = if n <? least then []
    else match n with
         | 0 => [0]
         | S n' => n :: countdown n' least
         end.
Proof. destruct n; reflexivity. Qed.

Lemma in_countdown (n least k : nat) :
  least <= k <= n -> In k (countdown n least).
Proof.
  induction n as [|n IH]; intros [H1 H2]; rewrite countdown_eq.
  - assert (k = 0) by lia. assert (least = 0) by lia. subst. now left.
  - destruct (S n <? least) eqn:E.
    + apply Nat.ltb_lt in E. lia.
    + destruct (Nat.eq_dec k (S n)) as [->|Hk]; [now left|].
      right. apply IH. lia.
Qed.

Lemma span_app_ge (k : cclass) (w s : text) :
  Forall (fun c => accepts k c = true) w -> length w <= span k (w ++ s).
Proof.
  induction 1 as [|c w Hc Hw IH]; simpl; [lia|].
  rewrite Hc. lia.
Qed.

Lemma in_run_rep (k : cclass) (least : nat) (bos : bool) (w s : text) :
  Forall (fun c => accepts k c = true) w ->
  least <= length w ->
  In (w, [], s) (run (Rep k least) bos (w ++ s)).
Proof.
  intros Hw Hl. simpl. apply in_map_iff. exists (length w). split.
  - now rewrite firstn_app, firstn_all, skipn_app, skipn_all,
      Nat.sub_diag, app_nil_r.
  - apply in_countdown. split; [exact Hl | now apply span_app_ge].
Qed.

Lemma no_LF_dot (s : text) :
  ~ In LF s -> Forall (fun c => accepts Dot c = true) s.
Proof.
  intros H. apply Forall_forall. intros c Hc. simpl. unfold is_dot.
  destruct (Ascii.eqb c LF) eqn:E; [|reflexivity].
  apply Ascii.eqb_eq in E. now subst.
Qed.

(** A line in the [asm( ... )] envelope is [asm(], a middle part and [)]. *)
Lemma envelope_inv (line : text) :
  Str.startswith "asm(" line = true -> Str.endswith ")" line = true ->
  exists mid, line = "asm(" ++ mid ++ ")".
Proof.
  intros Hs He. apply startswith_inv in Hs.
  remember (skipn (length "asm(") line) as rest eqn:Hrest.
  clear Hrest. subst line.
  destruct (rev rest) as [|c t] eqn:Er;
    apply (f_equal (@rev ascii)) in Er; rewrite rev_involutive in Er;
    simpl in Er; subst rest.
  - discriminate He.
  - exists (rev t). unfold Str.endswith in He.
    change ("a"%char :: "s"%char :: "m"%char :: "("%char :: rev t ++ [c])
      with ("asm(" ++ rev t ++ [c]) in He.
    rewrite !rev_app_distr in He. cbn [rev app Str.startswith] in He.
    rewrite andb_true_r in He. apply Ascii.eqb_eq in He. now subst.
Qed.

(** The call pattern accepts every line in the envelope. *)
Lemma call_pattern_envelope (mid : text) :
  ~ In LF mid ->
  matched (re_match call_pattern ("asm(" ++ mid ++ ")")) = true.
Proof.
  intros Hmid.
  apply matched_of_way with (w := ([] ++ "asm" ++ "(" ++ mid ++ ")" ++ [],
                                   [] ++ [] ++ [] ++ [] ++ [] ++ [], [])).
  unfold call_pattern.
  apply in_run_seq with (s1 := "asm(" ++ mid ++ ")"); [now left|].
  apply in_run_seq with (s1 := "(" ++ mid ++ ")"); [now left|].
  apply in_run_seq with (s1 := mid ++ ")"); [apply (in_run_lit "(")|].
  apply in_run_seq with (s1 := ")").
  - apply in_run_rep; [now apply no_LF_dot | apply Nat.le_0_l].
  - apply in_run_seq with (s1 := []); [apply (in_run_lit ")" [])|now left].
Qed.

Lemma asm_line_is_call (self : LuaASMParser) (line : text) :
  ~ In LF line ->
  Str.startswith "asm(" line = true -> Str.endswith ")" line = true ->
  matched (re_match call_pattern line) = true
  /\ classify self line = Ok (_parse_function_call self line).
Proof.
  intros Hlf Hs He. destruct (envelope_inv line Hs He) as [mid ->].
  assert (Hm : matched (re_match call_pattern ("asm(" ++ mid ++ ")")) = true).
  { apply call_pattern_envelope. intros H. apply Hlf.
    apply in_or_app. right. apply in_or_app. now left. }
  split; [exact Hm|].
  unfold classify. rewrite Hm. reflexivity.
Qed.

(** ** The parser loop *)

Lemma classify_inline_asm (self self' : LuaASMParser) (line : text) :
  ~ In LF line -> classify self line = Ok self' ->
  inline_asm self' = inline_asm self.
Proof.
  intros Hlf H. unfold classify in H.
  destruct (Str.startswith "import" line).
  { unfold _parse_import_definition in H.
    destruct (re_match single_import_pattern line);
      [|destruct (re_match multi_import_pattern line);
        [|destruct (re_match local_import_pattern line)]];
      inversion H; reflexivity. }
  destruct (Str.startswith "#!arch[" line).
  { unfold _parse_architecture in H.
    destruct (re_match architecture_pattern line); inversion H; reflexivity. }
  destruct (Str.startswith "#![" line).
  { unfold _parse_directive in H.
    destruct (re_match directive_pattern line); inversion H; reflexivity. }
  destruct (Str.startswith "function" line).
  { unfold _parse_function_definition in H.
    destruct (re_match function_pattern line); inversion H; reflexivity. }
  destruct (teqb line "end").
  { inversion H. unfold _end_function_definition.
    destruct (current_function self); reflexivity. }
  destruct (matched (re_match call_pattern line)) eqn:Hm.
  { inversion H. unfold _parse_function_call.
    destruct (current_function self); reflexivity. }
  destruct (Str.startswith "asm(" line && Str.endswith ")" line) eqn:He.
  { apply andb_true_iff in He as [Hs He].
    destruct (asm_line_is_call self line Hlf Hs He) as [Hm' _]. congruence. }
  inversion H. reflexivity.
Qed.

Lemma parse_lines_inline_asm (lines : list text) :
  (forall l, In l lines -> ~ In LF l) ->
  forall self self', parse_lines self lines = Ok self' ->
  inline_asm self' = inline_asm self.
Proof.
  induction lines as [|l rest IH]; intros Hlf self self' H; simpl in H.
  - now inversion H.
  - assert (Hrest : forall l0, In l0 rest -> ~ In LF l0)
      by (intros l0 H0; apply Hlf; now right).
    destruct (isnil (Str.strip l)); [now apply IH|].
    destruct (classify self (Str.strip l)) as [self1|e] eqn:Hc;
      simpl in H; [|discriminate].
    rewrite (IH Hrest self1 self' H).
    apply classify_inline_asm with (line := Str.strip l); [|exact Hc].
    intros Hin. apply (Hlf l); [now left | now apply strip_incl].
Qed.

Lemma classify_raises_syntax (self : LuaASMParser) (line : text) (e : exn) :
  classify self line = Raise e -> exists msg, e = SyntaxError msg.
Proof.
  unfold classify, _parse_import_definition, _parse_architecture,
    _parse_directive, _parse_function_definition, _parse_inline_asm.
  intros H.
  repeat match type of H with
         | context [if ?b then _ else _] => destruct b
         | context [match ?o with Some _ => _ | None => _ end] => destruct o
         end;
    inversion H; eexists; reflexivity.
Qed.

(** A line on which the rules raise stops the loop with a [SyntaxError],
    raised there or on an earlier line. *)
Lemma parse_lines_raises (target msg0 : text) :
  target <> [] ->
  (forall self, classify self target = Raise (SyntaxError msg0)) ->
  forall lines self, In target (map Str.strip lines) ->
  exists msg, parse_lines self lines = Raise (SyntaxError msg).
Proof.
  intros Hne Ht. induction lines as [|l rest IH]; intros self Hin; simpl in *.
  - contradiction.
  - destruct (isnil (Str.strip l)) eqn:En.
    + destruct Hin as [E|Hin]; [|now apply IH].
      rewrite E in En. destruct target; [contradiction|discriminate].
    + destruct (classify self (Str.strip l)) as [self1|e] eqn:Hc; simpl.
      * destruct Hin as [E|Hin]; [|now apply IH].
        rewrite E, Ht in Hc. discriminate.
      * destruct (classify_raises_syntax _ _ _ Hc) as [msg ->]. now exists msg.
Qed.

(** C4.  A completed parse leaves [inline_asm] empty, whatever the source
    text: a line that begins with [asm(] and ends with [)] matches the call
    pattern, which [parse] tests first, so the line is handled by the call
    rule and the inline-assembly branch is never taken.  The line is then
    recorded whole as a call: appended to the body of the open function
    when there is one, and to [code_outside_functions] otherwise. *)
Theorem inline_asm_branch_unreachable :
  (forall code self', parse init code = Ok self' -> inline_asm self' = [])
  /\ (forall self line,
         ~ In LF line ->
         Str.startswith "asm(" line = true -> Str.endswith ")" line = true ->
         matched (re_match call_pattern line) = true
         /\ classify self line = Ok (_parse_function_call self line)
         /\ classify self line
            = Ok match current_function self with
                 | Some f =>
                     set_current_function self
                       (Some {| name := name f; params := params f;
                                body := body f ++ [line] |})
                 | None =>
                     set_code_outside_functions self
                       (code_outside_functions self ++ [line])
                 end).
Proof.
  split.
  - intros code self' H.
    apply (parse_lines_inline_asm (Str.splitlines (Str.strip code))) in H;
      [exact H|].
    intros l Hl. now apply splitlines_no_LF with (s := Str.strip code).
  - intros self line Hlf Hs He.
    destruct (asm_line_is_call self line Hlf Hs He) as [Hm Hc].
    split; [exact Hm|]. split; [exact Hc|].
    rewrite Hc. unfold _parse_function_call.
    destruct (envelope_inv line Hs He) as [mid ->].
    replace (Str.strip ("asm(" ++ mid ++ ")")) with ("asm(" ++ mid ++ ")");
      [reflexivity|].
    symmetry.
    replace ("asm(" ++ mid ++ ")")
      with ("a"%char :: ("sm(" ++ mid) ++ [")"%char])
      by (rewrite <- !app_assoc; reflexivity).
    now apply strip_between.
Qed.

Lemma inline_asm_branch_unreachable_witness :
  inline_asm (set_code_outside_functions init ["asm(nop)"]) = []
  /\ matched (re_match call_pattern "asm(nop)") = true
  /\ classify init "asm(nop)"
     = Ok (set_code_outside_functions init ["asm(nop)"])
  /\ classify
       (set_current_function init
          (Some {| name := "f"; params := []; body := ["g()"] |}))
       "asm(nop)"
     = Ok (set_current_function init
             (Some {| name := "f"; params := [];
                      body := ["g()"; "asm(nop)"] |})).
Proof.
  assert (Hlf : ~ In LF "asm(nop)").
  { intros H. repeat (destruct H as [H|H]; [discriminate H|]). exact H. }
  split.
  - apply (proj1 inline_asm_branch_unreachable "asm(nop)"). reflexivity.
  - destruct (proj2 inline_asm_branch_unreachable init "asm(nop)"
                Hlf eq_refl eq_refl) as (Hm & _ & Hrec).
    split; [exact Hm|]. split; [exact Hrec|].
    destruct (proj2 inline_asm_branch_unreachable
                (set_current_function init
                   (Some {| name := "f"; params := []; body := ["g()"] |}))
                "asm(nop)" Hlf eq_refl eq_refl) as (_ & _ & Hrec').
    exact Hrec'.
Defined.

(** C9.  Whenever one of the lines of the source text is [#![foo(1)]],
    [parse] raises a [SyntaxError] and [main] ends there: [generate_code] is
    not reached and nothing is written. *)
Theorem unknown_directive_aborts (code : text) :
  In "#![foo(1)]" (map Str.strip (Str.splitlines (Str.strip code))) ->
  exists msg,
    parse init code = Raise (SyntaxError msg)
    /\ main code = Some (ParseFailed (SyntaxError msg)).
Proof.
  intros Hin.
  destruct (parse_lines_raises "#![foo(1)]"
              "Invalid directive format: #![foo(1)]"
              ltac:(discriminate) ltac:(reflexivity)
              (Str.splitlines (Str.strip code)) init Hin) as [msg Hmsg].
  exists msg. unfold main, parse. now rewrite Hmsg.
Qed.

Lemma unknown_directive_aborts_witness :
  exists msg,
    parse init ("#!arch[x86]" ++ [LF] ++ "#![foo(1)]" ++ [LF] ++ "end")
    = Raise (SyntaxError msg)
    /\ main ("#!arch[x86]" ++ [LF] ++ "#![foo(1)]" ++ [LF] ++ "end")
       = Some (ParseFailed (SyntaxError msg)).
Proof.
  apply (unknown_directive_aborts
           ("#!arch[x86]" ++ [LF] ++ "#![foo(1)]" ++ [LF] ++ "end")).
  vm_compute. right. left. reflexivity.
Defined.

(** ** The inline-assembly loop of [generate_code] *)

Lemma dropwhile_length (f : ascii -> bool) (s : text) :
  length (Str.dropwhile f s) <= length s.
Proof.
  induction s as [|c s IH]; simpl; [lia|].
  destruct (f c); simpl; lia.
Qed.

Lemma strip_length (s : text) : length (Str.strip s) <= length s.
Proof.
  unfold Str.strip, Str.rstrip, Str.lstrip. rewrite length_rev.
  etransitivity; [apply dropwhile_length|]. rewrite length_rev.
  apply dropwhile_length.
Qed.

Lemma removelast_length (s : text) : length (removelast s) <= length s.
Proof.
  induction s as [|c s IH]; simpl; [lia|].
  destruct s; simpl in *; lia.
Qed.

(** The fragment that [_parse_inline_asm] appends is shorter than the line
    it comes from. *)
Lemma fragment_shorter (line : text) :
  Str.startswith "asm(" line = true ->
  length (Str.strip (Str.slice_4_m1 line)) < length line.
Proof.
  intros H. apply startswith_inv in H.
  assert (Hlen : 4 <= length line)
    by (rewrite H, length_app; simpl; lia).
  unfold Str.slice_4_m1.
  pose proof (strip_length (removelast (skipn 4 line))).
  pose proof (removelast_length (skipn 4 line)).
  rewrite length_skipn in *. lia.
Qed.

Lemma weight_app (a b : list text) : weight (a ++ b) = weight a + weight b.
Proof.
  induction a as [|e a IH]; simpl; [reflexivity|]. rewrite IH. lia.
Qed.

Lemma skipn_nth_error (l : list text) (i : nat) (e : text) :
  nth_error l i = Some e -> skipn i l = e :: skipn (S i) l.
Proof.
  revert i; induction l as [|d l IH]; intros [|i] H; simpl in *; try easy.
  - now inversion H.
  - now apply IH.
Qed.

(** Once the loop is on an entry it ends with a [SyntaxError]: on that
    entry, or on one of the shorter entries appended after it. *)
Lemma emit_inline_asm_raises (fuel : nat) :
  forall self i output,
    i < length (inline_asm self) ->
    weight (skipn i (inline_asm self)) < fuel ->
    exists msg,
      emit_inline_asm fuel self i output = Some (Raise (SyntaxError msg)).
Proof.
  induction fuel as [|fuel IH]; intros self i output Hi Hw; [lia|].
  simpl. destruct (nth_error (inline_asm self) i) as [asm|] eqn:En.
  2: { apply nth_error_None in En. lia. }
  unfold _parse_inline_asm.
  destruct (Str.startswith "asm(" asm && Str.endswith ")" asm) eqn:Ee.
  2: { eexists; reflexivity. }
  apply andb_true_iff in Ee as [Hs _].
  apply IH; cbn [inline_asm set_inline_asm].
  - rewrite length_app. simpl. lia.
  - rewrite skipn_app, weight_app.
    replace (S i - length (inline_asm self)) with 0 by lia.
    rewrite (skipn_nth_error _ _ _ En) in Hw.
    cbn [skipn weight fold_right] in *.
    pose proof (fragment_shorter asm Hs). lia.
Qed.

Lemma emit_inline_asm_nil (fuel : nat) (self : LuaASMParser)
    (output : list out_line) :
  inline_asm self = [] ->
  emit_inline_asm (S fuel) self 0 output = Some (Ok (self, output)).
Proof. intros H. simpl. now rewrite H. Qed.

(** The fuel of [generate_code] is enough: it always returns or raises. *)
Lemma generate_code_total (self : LuaASMParser) :
  exists r, generate_code self = Some r.
Proof.
  unfold generate_code, generate_code_fuel.
  destruct (emit_start self (emit_bits self [])) as [out|e];
    [|eexists; reflexivity].
  destruct (inline_asm self) as [|a l] eqn:El.
  - rewrite emit_inline_asm_nil by exact El. eexists; reflexivity.
  - destruct (emit_inline_asm_raises (S (weight (a :: l))) self 0
                (emit_functions self (emit_free self out))) as [msg ->].
    + rewrite El. simpl. lia.
    + rewrite El. simpl. lia.
    + eexists; reflexivity.
Qed.

Lemma main_total (code : text) : exists o, main code = Some o.
Proof.
  unfold main. destruct (parse init code) as [p|e]; [|eexists; reflexivity].
  destruct (generate_code_total p) as [[t|e] ->]; eexists; reflexivity.
Qed.

Lemma has_directives_start (self : LuaASMParser) :
  has_directives self = true ->
  exists v, dict_item (directives self) "start" = Ok v.
Proof.
  unfold has_directives, has_key, dict_item. simpl. intros H.
  apply andb_true_iff in H as [_ H]. apply andb_true_iff in H as [_ H].
  apply andb_true_iff in H as [H _].
  destruct (dict_get (directives self) "start") as [v|]; [|discriminate].
  now exists v.
Qed.

Lemma emit_start_ok (self : LuaASMParser) (output : list out_line) :
  has_directives self = true ->
  exists out, emit_start self output = Ok out.
Proof.
  intros H. destruct (has_directives_start self H) as [v Hv].
  unfold emit_start. rewrite Hv. simpl. eexists; reflexivity.
Qed.

(** Whatever the entries are, a non-empty [inline_asm] makes generation
    fail with a [SyntaxError]. *)
Lemma generate_code_inline_asm_fails (self : LuaASMParser) :
  has_directives self = true -> inline_asm self <> [] ->
  exists msg, generate_code self = Some (Raise (SyntaxError msg)).
Proof.
  intros Hd Hne. unfold generate_code, generate_code_fuel.
  destruct (emit_start_ok self (emit_bits self []) Hd) as [out ->].
  destruct (emit_inline_asm_raises (S (weight (inline_asm self))) self 0
              (emit_functions self (emit_free self out))) as [msg ->].
  - destruct (inline_asm self); [contradiction | simpl; lia].
  - simpl. lia.
  - now exists msg.
Qed.

(** C5.  On a parser object whose [inline_asm] is non-empty and whose
    entries are not in the [asm( ... )] envelope, [generate_code] raises the
    [SyntaxError] of the inline-assembly rule on the first entry, and so
    returns no text. *)
Theorem generate_code_rejects_stripped_fragments
    (self : LuaASMParser) (e : text) (rest : list text) :
  has_directives self = true ->
  inline_asm self = e :: rest ->
  Forall (fun asm => in_envelope asm = false) (e :: rest) ->
  generate_code self
  = Some (Raise (SyntaxError ("Invalid inline assembly format: " ++ e))).
Proof.
  intros Hd Hl Hall. unfold generate_code, generate_code_fuel.
  destruct (emit_start_ok self (emit_bits self []) Hd) as [out ->].
  simpl. rewrite Hl. simpl. unfold _parse_inline_asm.
  inversion Hall as [|? ? He _]. unfold in_envelope in He. now rewrite He.
Qed.

Lemma generate_code_rejects_stripped_fragments_witness :
  generate_code (set_inline_asm init ["nop"; "mov eax, 1"])
  = Some (Raise (SyntaxError "Invalid inline assembly format: nop")).
Proof.
  apply (generate_code_rejects_stripped_fragments
           (set_inline_asm init ["nop"; "mov eax, 1"]) "nop" ["mov eax, 1"]).
  - reflexivity.
  - reflexivity.
  - repeat constructor.
Defined.

(** ** The text of [generate_code] *)

Lemma has_directives_inv (self : LuaASMParser) :
  has_directives self = true ->
  exists p s o,
    dict_get (directives self) "pad" = Some p
    /\ dict_get (directives self) "sign" = Some s
    /\ dict_get (directives self) "start" = Some o.
Proof.
  unfold has_directives, has_key. cbn [forallb]. intros H.
  apply andb_true_iff in H as [Hp H]. apply andb_true_iff in H as [Hs H].
  apply andb_true_iff in H as [Ho _].
  destruct (dict_get (directives self) "pad") as [p|]; [|discriminate].
  destruct (dict_get (directives self) "sign") as [s|]; [|discriminate].
  destruct (dict_get (directives self) "start") as [o|]; [|discriminate].
  now exists p, s, o.
Qed.

Lemma emit_bits_eq (self : LuaASMParser) (output : list out_line) :
  emit_bits self output = output ++ map Some (section_bits self).
Proof.
  unfold emit_bits, section_bits.
  destruct (architecture self) as [[|c a]|]; simpl;
    now rewrite ?app_nil_r.
Qed.

Lemma emit_start_eq (self : LuaASMParser) (output : list out_line) :
  has_directives self = true ->
  emit_start self output
  = Ok (output ++ map Some (section_org self ++ section_entry)).
Proof.
  intros H. destruct (has_directives_inv self H) as (p & s & o & _ & _ & Ho).
  unfold emit_start, dict_item, section_org, directive_value.
  rewrite Ho. cbn [bind].
  destruct o as [[|c v]|]; cbn [app map]; now rewrite <- ?app_assoc.
Qed.

Lemma emit_free_eq (self : LuaASMParser) (output : list out_line) :
  emit_free self output = output ++ map Some (section_free self).
Proof.
  unfold emit_free, section_free.
  revert output.
  induction (code_outside_functions self) as [|l ls IH]; intros output;
    cbn [fold_left map].
  - now rewrite app_nil_r.
  - rewrite IH, <- app_assoc. reflexivity.
Qed.

Lemma emit_functions_eq (self : LuaASMParser) (output : list out_line) :
  emit_functions self output
  = output ++ map Some (section_functions (functions self)).
Proof.
  unfold emit_functions, section_functions.
  revert output.
  induction (dict_values (functions self)) as [|f fs IH]; intros output;
    cbn [fold_left flat_map].
  - cbn [map]. now rewrite app_nil_r.
  - rewrite IH, <- app_assoc, map_app. reflexivity.
Qed.

Lemma emit_trailer_eq (self : LuaASMParser) (output : list out_line) :
  has_directives self = true ->
  emit_trailer self output
  = Ok (output ++ map Some (section_pad self ++ section_sign self)).
Proof.
  intros H. destruct (has_directives_inv self H) as (p & s & o & Hp & Hs & _).
  unfold emit_trailer, dict_item, section_pad, section_sign, directive_value.
  rewrite Hp, Hs. cbn [bind].
  destruct p as [[|c v]|], s as [[|d w]|]; cbn [app map];
    now rewrite <- ?app_assoc, ?app_nil_r.
Qed.

Lemma all_strings_some (l : list text) : all_strings (map Some l) = Ok l.
Proof.
  induction l as [|s l IH]; cbn [map all_strings]; [reflexivity|].
  now rewrite IH.
Qed.

(** With the three directive keys and an empty [inline_asm],
    [generate_code] returns the sections joined by newlines. *)
Lemma generate_code_sections (self : LuaASMParser) :
  has_directives self = true -> inline_asm self = [] ->
  generate_code self = Some (Ok (Str.join [LF] (sections self))).
Proof.
  intros Hd Hn. unfold generate_code, generate_code_fuel.
  rewrite emit_bits_eq, (emit_start_eq _ _ Hd), emit_free_eq,
    emit_functions_eq, (emit_inline_asm_nil _ _ _ Hn),
    (emit_trailer_eq _ _ Hd).
  cbn [bind app]. rewrite <- !map_app. unfold join_lines.
  rewrite all_strings_some. cbn [bind]. unfold sections.
  now rewrite <- !app_assoc.
Qed.

Lemma dict_values_set_new {V : Type} (d : dict V) (k : text) (v : V) :
  dict_get d k = None -> dict_values (dict_set d k v) = dict_values d ++ [v].
Proof.
  unfold dict_values.
  induction d as [|[k' v'] d IH]; cbn [dict_get dict_set map app];
    [reflexivity|].
  destruct (teqb k' k); [discriminate|].
  intros H. cbn [map snd]. now rewrite IH.
Qed.

(** C6.  When generation completes, the text is made of lines that do not
    depend on the functions table, with, between them, one label line
    [<name>:] and the same four lines for each entry of the table, in the
    order of the table; nothing but the [name] of an entry occurs in the
    text, so [params] and [body] have no effect.  The order of the table is
    insertion order: an entry under a new key goes to the end. *)
Theorem functions_emitted_as_fixed_bodies (self : LuaASMParser) :
  has_directives self = true -> inline_asm self = [] ->
  (exists before after : list text,
      forall fs : dict function_def,
        generate_code (set_functions self fs)
        = Some (Ok (Str.join [LF]
                      (before
                       ++ flat_map (fun f => label_and_fixed_body (name f))
                                   (dict_values fs)
                       ++ after))))
  /\ (forall (fs : dict function_def) k f,
         dict_get fs k = None ->
         dict_values (dict_set fs k f) = dict_values fs ++ [f]).
Proof.
  intros Hd Hn. split; [|intros fs k f; apply dict_values_set_new].
  exists (section_bits self ++ section_org self ++ section_entry
          ++ section_free self), (section_pad self ++ section_sign self).
  intros fs.
  rewrite (generate_code_sections (set_functions self fs) Hd Hn).
  unfold sections, section_functions. cbn [functions set_functions].
  now rewrite <- !app_assoc.
Qed.

Lemma functions_emitted_as_fixed_bodies_witness :
  (exists before after : list text,
      forall fs : dict function_def,
        generate_code (set_functions init fs)
        = Some (Ok (Str.join [LF]
                      (before
                       ++ flat_map (fun f => label_and_fixed_body (name f))
                                   (dict_values fs)
                       ++ after))))
  /\ (forall (fs : dict function_def) k f,
         dict_get fs k = None ->
         dict_values (dict_set fs k f) = dict_values fs ++ [f]).
Proof.
  apply (functions_emitted_as_fixed_bodies init); reflexivity.
Defined.

Lemma join_cons (sep x : text) (l : list text) :
  l <> [] -> Str.join sep (x :: l) = x ++ sep ++ Str.join sep l.
Proof. destruct l; [contradiction|reflexivity]. Qed.

Lemma sections_unset (self : LuaASMParser) :
  exists first more,
    sections (set_architecture self None) = first :: more
    /\ more <> []
    /\ (Str.startswith "ORG " first = true \/ first = "_start:").
Proof.
  unfold sections, section_bits, section_org. cbn [architecture app].
  destruct (directive_value (set_architecture self None) "start") as [v|].
  - eexists _, _. split; [reflexivity|]. split; [discriminate|].
    left. apply (startswith_app "ORG ").
  - eexists _, _. split; [reflexivity|]. split; [discriminate|].
    now right.
Qed.

(** C7.  With a non-empty architecture [a], the text that [generate_code]
    returns is a first line [BITS w] followed by the text returned when the
    architecture is unset; [w] is 32, 64 or 16 when the lower-cased [a] is
    [x86], [x64] or [x16], and 32 for any other [a].  With the architecture
    unset the first line is the [ORG] line or the entry label, so no
    bit-width line is emitted. *)
Theorem bit_width_header (self : LuaASMParser) :
  has_directives self = true -> inline_asm self = [] ->
  exists rest : text,
    generate_code (set_architecture self None) = Some (Ok rest)
    /\ (Str.startswith "ORG " rest = true
        \/ Str.startswith "_start:" rest = true)
    /\ forall a : text,
        a <> [] ->
        exists w : text,
          generate_code (set_architecture self (Some a))
          = Some (Ok ("BITS " ++ w ++ [LF] ++ rest))
          /\ (Str.lower a = "x86" -> w = "32")
          /\ (Str.lower a = "x64" -> w = "64")
          /\ (Str.lower a = "x16" -> w = "16")
          /\ (Str.lower a <> "x86" -> Str.lower a <> "x64" ->
              Str.lower a <> "x16" -> w = "32").
Proof.
  intros Hd Hn.
  destruct (sections_unset self) as (first & more & Hsec & Hmore & Hfirst).
  exists (Str.join [LF] (sections (set_architecture self None))).
  split; [now apply generate_code_sections|].
  split.
  { rewrite Hsec, join_cons by exact Hmore.
    destruct Hfirst as [H| ->].
    - left. apply startswith_inv in H. rewrite H, <- app_assoc.
      apply startswith_app.
    - right. apply (startswith_app "_start:"). }
  intros [|c a] Ha; [contradiction|].
  assert (Hgen : generate_code (set_architecture self (Some (c :: a)))
                 = Some (Ok (bits_of (c :: a) ++ [LF]
                             ++ Str.join [LF]
                                  (sections (set_architecture self None))))).
  { rewrite (generate_code_sections (set_architecture self (Some (c :: a)))
               Hd Hn).
    change (sections (set_architecture self (Some (c :: a))))
      with (bits_of (c :: a) :: sections (set_architecture self None)).
    rewrite join_cons; [reflexivity|]. rewrite Hsec. discriminate. }
  unfold bits_of in Hgen.
  destruct (teqb (Str.lower (c :: a)) "x86") eqn:E86.
  { apply teqb_eq in E86. exists "32". split; [exact Hgen|].
    rewrite E86. repeat split; (reflexivity || discriminate || congruence). }
  destruct (teqb (Str.lower (c :: a)) "x64") eqn:E64.
  { apply teqb_eq in E64. exists "64". split; [exact Hgen|].
    rewrite E64. repeat split; (reflexivity || discriminate || congruence). }
  destruct (teqb (Str.lower (c :: a)) "x16") eqn:E16.
  { apply teqb_eq in E16. exists "16". split; [exact Hgen|].
    rewrite E16. repeat split; (reflexivity || discriminate || congruence). }
  apply teqb_neq in E86, E64, E16.
  exists "32". split; [exact Hgen|].
  repeat split; (reflexivity || contradiction).
Qed.

Lemma bit_width_header_witness :
  exists rest : text,
    generate_code init = Some (Ok rest)
    /\ generate_code (set_architecture init (Some "X64"))
       = Some (Ok ("BITS 64" ++ [LF] ++ rest))
    /\ generate_code (set_architecture init (Some "arm"))
       = Some (Ok ("BITS 32" ++ [LF] ++ rest)).
Proof.
  destruct (bit_width_header init eq_refl eq_refl) as (rest & H0 & _ & Ha).
  exists rest. split; [exact H0|]. split.
  - destruct (Ha "X64" ltac:(discriminate)) as (w & Hw & _ & H64 & _).
    rewrite (H64 eq_refl) in Hw. exact Hw.
  - destruct (Ha "arm" ltac:(discriminate)) as (w & Hw & _ & _ & _ & H32).
    rewrite H32 in Hw by discriminate. exact Hw.
Defined.

(** ** The first match *)

Lemma re_match_hd (r : regex) (s m s' : text) (g : list text) :
  hd_error (run r true s) = Some (m, g, s') -> re_match r s = Some g.
Proof.
  unfold re_match. destruct (run r true s) as [|[[m0 g0] s0] t]; [easy|].
  cbn [hd_error]. now intros [= _ -> _].
Qed.

Lemma re_match_nil (r : regex) (s : text) :
  run r true s = [] -> re_match r s = None.
Proof. unfold re_match. now intros ->. Qed.

Lemma hd_seq (r1 r2 : regex) (bos : bool) (s : text)
    (m1 : text) (g1 : list text) (s1 : text)
    (m2 : text) (g2 : list text) (s2 : text) :
  hd_error (run r1 bos s) = Some (m1, g1, s1) ->
  hd_error (run r2 (bos && isnil m1) s1) = Some (m2, g2, s2) ->
  hd_error (run (r1 >> r2) bos s) = Some (m1 ++ m2, g1 ++ g2, s2).
Proof.
  intros H1 H2. cbn [run].
  destruct (run r1 bos s) as [|w1 t1]; [easy|].
  cbn [hd_error] in H1. injection H1 as ->. cbn [flat_map].
  destruct (run r2 (bos && isnil m1) s1) as [|w2 t2]; [easy|].
  cbn [hd_error] in H2. injection H2 as ->. reflexivity.
Qed.

Lemma hd_lit (t s : text) (bos : bool) :
  hd_error (run (Lit t) bos (t ++ s)) = Some (t, [], s).
Proof.
  cbn [run]. rewrite startswith_app. cbn [hd_error].
  now rewrite skipn_app, skipn_all, Nat.sub_diag.
Qed.

Lemma hd_grp (r : regex) (bos : bool) (s m s' : text) (g : list text) :
  hd_error (run r bos s) = Some (m, g, s') ->
  hd_error (run (Grp r) bos s) = Some (m, m :: g, s').
Proof.
  cbn [run]. destruct (run r bos s) as [|w t]; [easy|].
  cbn [hd_error map]. now intros [= ->].
Qed.

Lemma hd_alt_l (r1 r2 : regex) (bos : bool) (s : text) (w : way) :
  hd_error (run r1 bos s) = Some w ->
  hd_error (run (Alt r1 r2) bos s) = Some w.
Proof.
  cbn [run]. destruct (run r1 bos s); [easy|]. now cbn [hd_error app].
Qed.

Lemma hd_alt_r (r1 r2 : regex) (bos : bool) (s : text) :
  run r1 bos s = [] ->
  hd_error (run (Alt r1 r2) bos s) = hd_error (run r2 bos s).
Proof. cbn [run]. now intros ->. Qed.

Lemma forallb_accepts (k : cclass) (w : text) :
  forallb (accepts k) w = true -> Forall (fun c => accepts k c = true) w.
Proof. intros H. apply Forall_forall. now apply forallb_forall. Qed.

Lemma span_app (k : cclass) (w s : text) :
  Forall (fun c => accepts k c = true) w ->
  span k (w ++ s) = length w + span k s.
Proof.
  induction 1 as [|c w Hc Hw IH]; cbn [app span length]; [reflexivity|].
  now rewrite Hc, IH.
Qed.

Lemma countdown_hd (n least : nat) :
  least <= n -> exists t, countdown n least = n :: t.
Proof.
  intros H. rewrite countdown_eq.
  destruct (n <? least) eqn:E; [apply Nat.ltb_lt in E; lia|].
  destruct n; eexists; reflexivity.
Qed.

(** A greedy repetition first takes the whole run of characters of its
    class. *)
Lemma hd_rep (k : cclass) (least : nat) (bos : bool) (w s : text) :
  Forall (fun c => accepts k c = true) w ->
  span k s = 0 -> least <= length w ->
  hd_error (run (Rep k least) bos (w ++ s)) = Some (w, [], s).
Proof.
  intros Hw Hs Hl. cbn [run]. rewrite (span_app k w s Hw), Hs, Nat.add_0_r.
  destruct (countdown_hd (length w) least Hl) as [t ->].
  cbn [map hd_error].
  now rewrite firstn_app, firstn_all, skipn_app, skipn_all,
    Nat.sub_diag, app_nil_r.
Qed.

(** ** Directive and import lines followed by more text *)

Lemma is_identifier_inv (w : text) :
  is_identifier w = true ->
  Forall (fun c => accepts Word c = true) w /\ 1 <= length w.
Proof.
  unfold is_identifier. intros H. apply andb_true_iff in H as [Hn Hw].
  split; [now apply (forallb_accepts Word)|].
  destruct w; [discriminate | simpl; lia].
Qed.

Lemma digit_not_x (c : ascii) :
  is_digit c = true -> Ascii.eqb "x"%char c = false.
Proof.
  intros H. destruct (Ascii.eqb "x"%char c) eqn:E; [|reflexivity].
  apply Ascii.eqb_eq in E. subst c. discriminate H.
Qed.

(** The value group takes a numeral whole when [)] follows it. *)
Lemma numeral_group (v rest : text) :
  is_numeral v = true ->
  hd_error (run (Grp (Alt (Lit "0x" >> Rep hexdigits 1) (Rep Digit 1)))
                false (v ++ ")" ++ rest))
  = Some (v, [v], ")" ++ rest).
Proof.
  unfold is_numeral. intros H. apply hd_grp.
  destruct (is_hex_numeral v) eqn:Eh.
  - clear H. unfold is_hex_numeral in Eh.
    apply andb_true_iff in Eh as [Eh Hh]. apply andb_true_iff in Eh as [Hp Hn].
    apply startswith_inv in Hp.
    remember (skipn (length "0x") v) as h eqn:Eqh.
    change (skipn 2 v) with (skipn (length "0x") v) in Hn, Hh.
    rewrite <- Eqh in Hn, Hh. clear Eqh. subst v.
    apply hd_alt_l. rewrite <- (app_nil_r (@nil text)) at 1.
    rewrite <- app_assoc.
    apply hd_seq with (s1 := h ++ ")" ++ rest); [apply hd_lit|].
    apply hd_rep; [now apply forallb_accepts | reflexivity|].
    destruct h; [discriminate | simpl; lia].
  - cbn [orb] in H. unfold is_decimal_numeral in H.
    apply andb_true_iff in H as [Hn Hd].
    rewrite hd_alt_r.
    + apply hd_rep; [now apply (forallb_accepts Digit) | reflexivity|].
      destruct v; [discriminate | simpl; lia].
    + cbn [run].
      assert (Hs : Str.startswith "0x" (v ++ ")" ++ rest) = false).
      { destruct v as [|d v]; [discriminate|].
        cbn [forallb] in Hd. apply andb_true_iff in Hd as [_ Hd].
        cbn [app Str.startswith].
        destruct v as [|d' v]; cbn [app].
        - apply andb_false_iff. right. reflexivity.
        - cbn [forallb] in Hd. apply andb_true_iff in Hd as [Hd' _].
          rewrite (digit_not_x d' Hd'). apply andb_false_iff. now right. }
      now rewrite Hs.
Qed.

Lemma directive_match (dname value junk : text) :
  In dname ["start"; "pad"; "sign"] -> is_numeral value = true ->
  re_match directive_pattern ("#![" ++ dname ++ "(" ++ value ++ ")]" ++ junk)
  = Some [dname; value].
Proof.
  intros Hn Hv.
  eassert (H : hd_error (run directive_pattern true
                           ("#![" ++ dname ++ "(" ++ value ++ ")]" ++ junk))
               = Some (_, _, _)).
  { unfold directive_pattern.
    eapply hd_seq; [apply hd_lit|].
    eapply hd_seq.
    { apply hd_grp.
      destruct Hn as [<-|[<-|[<-|[]]]].
      - apply hd_alt_l, hd_lit.
      - rewrite hd_alt_r by reflexivity. apply hd_alt_l, hd_lit.
      - rewrite 2 hd_alt_r by reflexivity. apply hd_lit. }
    eapply hd_seq; [apply hd_lit|].
    eapply hd_seq; [apply (numeral_group value ("]" ++ junk) Hv)|].
    apply (hd_lit ")]"). }
  apply re_match_hd in H. exact H.
Qed.

Lemma directive_with_trailing (self : LuaASMParser) (dname value junk : text) :
  In dname ["start"; "pad"; "sign"] -> is_numeral value = true ->
  classify self ("#![" ++ dname ++ "(" ++ value ++ ")]" ++ junk)
  = Ok (set_directives self
          (dict_set (directives self) dname (Some value))).
Proof.
  intros Hn Hv.
  change (classify self ("#![" ++ dname ++ "(" ++ value ++ ")]" ++ junk))
    with (_parse_directive self
            ("#![" ++ dname ++ "(" ++ value ++ ")]" ++ junk)).
  unfold _parse_directive. now rewrite directive_match.
Qed.

Lemma single_import_match (f m junk : text) :
  is_identifier f = true -> is_identifier m = true -> span Word junk = 0 ->
  re_match single_import_pattern ("import " ++ f ++ " from " ++ m ++ junk)
  = Some [f; m].
Proof.
  intros Hf Hm Hj.
  apply is_identifier_inv in Hf as [Hf Hfl], Hm as [Hm Hml].
  eassert (H : hd_error (run single_import_pattern true
                           ("import " ++ f ++ " from " ++ m ++ junk))
               = Some (_, _, _)).
  { unfold single_import_pattern.
    eapply hd_seq; [apply hd_lit|].
    eapply hd_seq; [apply hd_grp, hd_rep; [exact Hf|reflexivity|exact Hfl]|].
    eapply hd_seq; [apply hd_lit|].
    apply hd_grp, hd_rep; [exact Hm|exact Hj|exact Hml]. }
  apply re_match_hd in H. exact H.
Qed.

Lemma single_import_with_trailing (self : LuaASMParser) (f m junk : text) :
  is_identifier f = true -> is_identifier m = true -> span Word junk = 0 ->
  classify self ("import " ++ f ++ " from " ++ m ++ junk)
  = Ok (set_imports self (dict_set (imports self) f m)).
Proof.
  intros Hf Hm Hj.
  change (classify self ("import " ++ f ++ " from " ++ m ++ junk))
    with (_parse_import_definition self
            ("import " ++ f ++ " from " ++ m ++ junk)).
  unfold _parse_import_definition. now rewrite single_import_match.
Qed.

(** ** Backtracking of a greedy repetition *)

Lemma in_countdown_inv (n least j : nat) :
  In j (countdown n least) -> least <= j <= n.
Proof.
  induction n as [|n IH]; rewrite countdown_eq.
  - destruct (0 <? least) eqn:E; [easy|]. apply Nat.ltb_ge in E.
    intros [<-|[]]. lia.
  - destruct (S n <? least) eqn:E; [easy|]. apply Nat.ltb_ge in E.
    intros [<-|H]; [lia|]. apply IH in H. lia.
Qed.

Lemma countdown_split (n a least : nat) :
  least <= S a -> a <= n ->
  countdown n least = countdown n (S a) ++ countdown a least.
Proof.
  intros Hl. induction n as [|n IH]; intros Ha.
  - assert (a = 0) by lia. subst a. reflexivity.
  - destruct (Nat.eq_dec a (S n)) as [->|Hne].
    + rewrite (countdown_eq (S n) (S (S n))).
      replace (S n <? S (S n)) with true by (symmetry; apply Nat.ltb_lt; lia).
      reflexivity.
    + rewrite (countdown_eq (S n) least), (countdown_eq (S n) (S a)).
      replace (S n <? least) with false
        by (symmetry; apply Nat.ltb_ge; lia).
      replace (S n <? S a) with false by (symmetry; apply Nat.ltb_ge; lia).
      rewrite IH by lia. reflexivity.
Qed.

Lemma flat_map_nil {A B : Type} (f : A -> list B) (l : list A) :
  (forall x, In x l -> f x = []) -> flat_map f l = [].
Proof.
  induction l as [|x l IH]; intros H; cbn [flat_map]; [reflexivity|].
  rewrite (H x) by now left. apply IH. intros y Hy. apply H. now right.
Qed.

Lemma span_le_length (k : cclass) (s : text) : span k s <= length s.
Proof.
  induction s as [|c s IH]; cbn [span length]; [lia|].
  destruct (accepts k c); lia.
Qed.

(** A group around a greedy repetition of [k], followed by [r2]: when [r2]
    matches right after a run [w] of characters of [k] and at no later
    position, the group takes exactly [w]. *)
Lemma hd_rep_backtrack (k : cclass) (least : nat) (r2 : regex)
    (w s m2 s2 : text) (g2 : list text) :
  Forall (fun c => accepts k c = true) w -> least <= length w ->
  (forall j, 1 <= j <= length s -> run r2 false (skipn j s) = []) ->
  hd_error (run r2 false s) = Some (m2, g2, s2) ->
  hd_error (run (Grp (Rep k least) >> r2) false (w ++ s))
  = Some (w ++ m2, w :: g2, s2).
Proof.
  intros Hw Hl Hlater Hhere. cbn [run andb].
  rewrite (span_app k w s Hw).
  rewrite (countdown_split (length w + span k s) (length w) least)
    by lia.
  rewrite !map_app, flat_map_app.
  rewrite flat_map_nil.
  - destruct (countdown_hd (length w) least Hl) as [t ->].
    cbn [map flat_map app].
    rewrite firstn_app, firstn_all, skipn_app, skipn_all,
      Nat.sub_diag, app_nil_r.
    cbn [firstn skipn app].
    destruct (run r2 false s) as [|w2 t2]; [easy|].
    cbn [hd_error] in Hhere. injection Hhere as ->. reflexivity.
  - intros x Hx. apply in_map_iff in Hx as [y [<- Hy]].
    apply in_map_iff in Hy as [j [<- Hj]].
    apply in_countdown_inv in Hj.
    pose proof (span_le_length k s).
    rewrite skipn_app, skipn_all2 by lia. cbn [app].
    rewrite Hlater by lia. reflexivity.
Qed.

Lemma has_module_clause_skipn (junk : text) :
  has_module_clause junk = false ->
  forall i, run module_clause false (skipn i junk) = [].
Proof.
  induction junk as [|c junk IH]; intros H i.
  - now destruct i.
  - cbn [has_module_clause] in H. apply orb_false_iff in H as [H1 H2].
    destruct i as [|i]; [|now apply IH].
    cbn [skipn]. destruct (run module_clause false (c :: junk)); easy.
Qed.

Lemma word_not_bracket (c : ascii) :
  accepts Word c = true -> Ascii.eqb "]"%char c = false.
Proof.
  intros H. destruct (Ascii.eqb "]"%char c) eqn:E; [|reflexivity].
  apply Ascii.eqb_eq in E. subst c. discriminate H.
Qed.

Lemma no_clause_in_word (m junk : text) :
  Forall (fun c => accepts Word c = true) m ->
  has_module_clause junk = false ->
  forall i, run module_clause false (skipn i (m ++ junk)) = [].
Proof.
  intros Hm Hj. induction Hm as [|c m Hc Hm IH]; intros i.
  - now apply has_module_clause_skipn.
  - destruct i as [|i]; [|apply IH].
    unfold module_clause. cbn [skipn app run Str.startswith].
    now rewrite (word_not_bracket c Hc).
Qed.

Lemma no_clause_in_tail (m junk : text) (j : nat) :
  Forall (fun c => accepts Word c = true) m ->
  has_module_clause junk = false -> 1 <= j ->
  run module_clause false (skipn j ("] from " ++ m ++ junk)) = [].
Proof.
  intros Hm Hj Hpos.
  destruct j as [|[|[|[|[|[|[|j]]]]]]]; try lia; try reflexivity.
  apply (no_clause_in_word m junk Hm Hj j).
Qed.

Lemma multi_import_match (names m junk : text) :
  names <> [] -> ~ In LF names -> is_identifier m = true ->
  span Word junk = 0 -> has_module_clause junk = false ->
  re_match multi_import_pattern ("import [" ++ names ++ "] from " ++ m ++ junk)
  = Some [names; m].
Proof.
  intros Hne Hlf Hm Hw Hj. apply is_identifier_inv in Hm as [Hm Hml].
  eassert (H : hd_error (run multi_import_pattern true
                           ("import [" ++ names ++ "] from " ++ m ++ junk))
               = Some (_, _, _)).
  { unfold multi_import_pattern.
    eapply hd_seq; [apply hd_lit|].
    apply (hd_rep_backtrack Dot 1 module_clause names
             ("] from " ++ m ++ junk)).
    - now apply no_LF_dot.
    - destruct names; [contradiction | simpl; lia].
    - intros j [Hj1 _]. now apply no_clause_in_tail.
    - unfold module_clause.
      eapply hd_seq; [apply hd_lit|].
      apply hd_grp, hd_rep; [exact Hm | exact Hw | exact Hml]. }
  apply re_match_hd in H. exact H.
Qed.

Lemma multi_import_with_trailing (self : LuaASMParser) (names m junk : text) :
  names <> [] -> ~ In LF names -> is_identifier m = true ->
  span Word junk = 0 -> has_module_clause junk = false ->
  classify self ("import [" ++ names ++ "] from " ++ m ++ junk)
  = Ok (set_imports self
          (fold_left (fun d func => dict_set d func m)
                     (map Str.strip (Str.split ","%char names))
                     (imports self))).
Proof.
  intros Hne Hlf Hm Hw Hj.
  change (classify self ("import [" ++ names ++ "] from " ++ m ++ junk))
    with (_parse_import_definition self
            ("import [" ++ names ++ "] from " ++ m ++ junk)).
  unfold _parse_import_definition.
  rewrite multi_import_match by assumption.
  replace (re_match single_import_pattern
             ("import [" ++ names ++ "] from " ++ m ++ junk))
    with (@None (list text)) by reflexivity.
  reflexivity.
Qed.

(** *** Whatever the trailing text *)

Lemma span_firstn (k : cclass) (s : text) :
  forallb (accepts k) (firstn (span k s) s) = true.
Proof.
  induction s as [|c s IH]; cbn [span]; [reflexivity|].
  destruct (accepts k c) eqn:E; [|reflexivity].
  cbn [firstn forallb]. now rewrite E, IH.
Qed.

Lemma span_skipn (k : cclass) (s : text) :
  span k (skipn (span k s) s) = 0.
Proof.
  induction s as [|c s IH]; cbn [span]; [reflexivity|].
  destruct (accepts k c) eqn:E; [exact IH|].
  cbn [skipn span]. now rewrite E.
Qed.

Lemma identifier_app (m w : text) :
  is_identifier m = true -> forallb is_word w = true ->
  is_identifier (m ++ w) = true.
Proof.
  unfold is_identifier. intros H Hw.
  apply andb_true_iff in H as [Hn Hm].
  rewrite forallb_app, Hm, Hw. destruct m; [discriminate Hn|reflexivity].
Qed.

(** The module group of [import f from m...] takes [m] and the word
    characters that follow it. *)
Lemma single_import_any (self : LuaASMParser) (f m junk : text) :
  is_identifier f = true -> is_identifier m = true ->
  classify self ("import " ++ f ++ " from " ++ m ++ junk)
  = Ok (set_imports self
          (dict_set (imports self) f (m ++ firstn (span Word junk) junk))).
Proof.
  intros Hf Hm.
  rewrite <- (firstn_skipn (span Word junk) junk) at 1.
  rewrite (app_assoc m).
  apply single_import_with_trailing; [exact Hf| |apply span_skipn].
  apply identifier_app; [exact Hm | apply (span_firstn Word)].
Qed.

Lemma in_run_grp (r : regex) (bos : bool) (s m s' : text) (g : list text) :
  In (m, g, s') (run r bos s) -> In (m, m :: g, s') (run (Grp r) bos s).
Proof.
  intros H. cbn [run]. apply in_map_iff. now exists (m, g, s').
Qed.

Lemma matched_some (o : option (list text)) :
  matched o = true -> exists g, o = Some g.
Proof. destruct o as [g|]; [now exists g | discriminate]. Qed.

(** The multi-import pattern matches whatever follows the module name. *)
Lemma multi_import_any (self : LuaASMParser) (names m junk : text) :
  names <> [] -> ~ In LF names -> is_identifier m = true ->
  exists i,
    classify self ("import [" ++ names ++ "] from " ++ m ++ junk)
    = Ok (set_imports self i).
Proof.
  intros Hne Hlf Hm. apply is_identifier_inv in Hm as [Hm Hml].
  assert (Hmatch : matched (re_match multi_import_pattern
                              ("import [" ++ names ++ "] from " ++ m ++ junk))
                   = true).
  { apply matched_of_way
      with (w := ("import [" ++ names ++ "] from " ++ m,
                  [] ++ [names] ++ [] ++ [m], junk)).
    unfold multi_import_pattern.
    apply in_run_seq with (s1 := names ++ "] from " ++ m ++ junk);
      [apply (in_run_lit "import [")|].
    apply in_run_seq with (s1 := "] from " ++ m ++ junk).
    { apply in_run_grp, in_run_rep; [now apply no_LF_dot|].
      destruct names; [contradiction | simpl; lia]. }
    apply in_run_seq with (s1 := m ++ junk); [apply (in_run_lit "] from ")|].
    now apply in_run_grp, in_run_rep. }
  apply matched_some in Hmatch as [g Hg].
  change (classify self ("import [" ++ names ++ "] from " ++ m ++ junk))
    with (_parse_import_definition self
            ("import [" ++ names ++ "] from " ++ m ++ junk)).
  unfold _parse_import_definition. rewrite Hg.
  replace (re_match single_import_pattern
             ("import [" ++ names ++ "] from " ++ m ++ junk))
    with (@None (list text)) by reflexivity.
  eexists. reflexivity.
Qed.

(** C10, as the code has it.  The patterns are not anchored at the end, so
    text after a well-formed prefix never makes the rule raise: a layout
    directive, [import f from m] and [import [names] from m] are accepted
    whatever follows them.  What the rule stores is what it stores for the
    prefix alone
    - after a layout directive, whatever the trailing text is;
    - after [import f from m], when the trailing text does not begin with a
      word character; in general the module name stored is [m] followed by
      the word characters at the head of the trailing text;
    - after [import [names] from m], when moreover no part of the trailing
      text matches the end of the pattern, [] from ] and an identifier (the
      greedy group would then run up to the last such place).
    [classify] is applied to the stripped line. *)
Theorem trailing_text_after_prefix (self : LuaASMParser) (junk : text) :
  (forall dname value,
      In dname ["start"; "pad"; "sign"] -> is_numeral value = true ->
      classify self ("#![" ++ dname ++ "(" ++ value ++ ")]" ++ junk)
      = Ok (set_directives self
              (dict_set (directives self) dname (Some value)))
      /\ classify self ("#![" ++ dname ++ "(" ++ value ++ ")]" ++ junk)
         = classify self ("#![" ++ dname ++ "(" ++ value ++ ")]"))
  /\ (forall f m,
         is_identifier f = true -> is_identifier m = true ->
         classify self ("import " ++ f ++ " from " ++ m ++ junk)
         = Ok (set_imports self
                 (dict_set (imports self) f
                    (m ++ firstn (span Word junk) junk)))
         /\ (span Word junk = 0 ->
             classify self ("import " ++ f ++ " from " ++ m ++ junk)
             = Ok (set_imports self (dict_set (imports self) f m))
             /\ classify self ("import " ++ f ++ " from " ++ m ++ junk)
                = classify self ("import " ++ f ++ " from " ++ m)))
  /\ (forall names m,
         names <> [] -> ~ In LF names -> is_identifier m = true ->
         (exists i,
             classify self ("import [" ++ names ++ "] from " ++ m ++ junk)
             = Ok (set_imports self i))
         /\ (span Word junk = 0 -> has_module_clause junk = false ->
             classify self ("import [" ++ names ++ "] from " ++ m ++ junk)
             = Ok (set_imports self
                     (fold_left (fun d func => dict_set d func m)
                                (map Str.strip (Str.split ","%char names))
                                (imports self)))
             /\ classify self
                  ("import [" ++ names ++ "] from " ++ m ++ junk)
                = classify self ("import [" ++ names ++ "] from " ++ m))).
Proof.
  split; [|split].
  - intros dname value Hn Hv. split.
    + now apply directive_with_trailing.
    + rewrite (directive_with_trailing self dname value junk Hn Hv).
      rewrite <- (directive_with_trailing self dname value [] Hn Hv).
      now rewrite !app_nil_r.
  - intros f m Hf Hm. split; [now apply single_import_any|].
    intros Hw. split.
    + now apply single_import_with_trailing.
    + rewrite (single_import_with_trailing self f m junk Hf Hm Hw).
      rewrite <- (single_import_with_trailing self f m [] Hf Hm eq_refl).
      now rewrite !app_nil_r.
  - intros names m Hne Hlf Hm. split; [now apply multi_import_any|].
    intros Hw Hj. split.
    + now apply multi_import_with_trailing.
    + rewrite (multi_import_with_trailing self names m junk Hne Hlf Hm Hw Hj).
      rewrite <- (multi_import_with_trailing self names m [] Hne Hlf Hm
                    eq_refl eq_refl).
      now rewrite !app_nil_r.
Qed.

Lemma trailing_text_after_prefix_witness :
  classify init "#![pad(5)] junk"
  = Ok (set_directives init (dict_set (directives init) "pad" (Some "5")))
  /\ classify init "import f from m junk"
     = Ok (set_imports init (dict_set (imports init) "f" "m"))
  /\ classify init "import [a, b] from m junk"
     = Ok (set_imports init [("a", "m"); ("b", "m")])
  /\ classify init "import f from mx y"
     = Ok (set_imports init [("f", "mx")])
  /\ (exists i,
         classify init "import [a] from m  x] from q"
         = Ok (set_imports init i)).
Proof.
  assert (Hlf : forall s : text,
             forallb (fun c => negb (Ascii.eqb c LF)) s = true ->
             ~ In LF s).
  { intros s H Hin. rewrite forallb_forall in H. specialize (H LF Hin).
    discriminate H. }
  destruct (trailing_text_after_prefix init " junk") as (Hd & Hs & Hm).
  split; [|split; [|split; [|split]]].
  - apply (Hd "pad" "5"); [right; left; reflexivity | reflexivity].
  - apply (proj2 (Hs "f" "m" eq_refl eq_refl) eq_refl).
  - apply (proj2 (Hm "a, b" "m" ltac:(discriminate) (Hlf "a, b" eq_refl)
                    eq_refl) eq_refl eq_refl).
  - apply (proj1 (proj1 (proj2 (trailing_text_after_prefix init "x y"))
                    "f" "m" eq_refl eq_refl)).
  - apply (proj1 (proj2 (proj2 (trailing_text_after_prefix init
                                  "  x] from q"))
                    "a" "m" ltac:(discriminate) (Hlf "a" eq_refl) eq_refl)).
Defined.

(** C10, as stated: trailing text is not always without effect.  One more
    word character after [import f from m] goes into the module name, and
    after a multi-import a second [] from ] moves the end of the name
    list. *)
Lemma trailing_text_changes_import :
  parse init "import f from m" = Ok (set_imports init [("f", "m")])
  /\ parse init ("import f from m" ++ "x")
     = Ok (set_imports init [("f", "mx")])
  /\ set_imports init [("f", "mx")] <> set_imports init [("f", "m")]
  /\ parse init "import [a] from m" = Ok (set_imports init [("a", "m")])
  /\ parse init ("import [a] from m" ++ "  x] from q")
     = Ok (set_imports init [("a] from m  x", "q")]).
Proof.
  repeat split; try reflexivity. discriminate.
Qed.

(** ** Function definitions *)

Lemma word_not_space (c : ascii) :
  accepts Word c = true -> Str.isspace c = false.
Proof.
  destruct c as [[] [] [] [] [] [] [] []]; vm_compute; intros; congruence.
Qed.

Lemma word_not_comma (c : ascii) :
  accepts Word c = true -> Ascii.eqb c ","%char = false.
Proof.
  intros H. destruct (Ascii.eqb c ","%char) eqn:E; [|reflexivity].
  apply Ascii.eqb_eq in E. subst c. discriminate H.
Qed.

Lemma word_not_LF (c : ascii) : accepts Word c = true -> c <> LF.
Proof. intros H ->. discriminate H. Qed.

Lemma dropwhile_word (w : text) :
  Forall (fun c => accepts Word c = true) w ->
  Str.dropwhile Str.isspace w = w.
Proof.
  intros [|c w' Hc _]; [reflexivity|].
  cbn [Str.dropwhile]. now rewrite (word_not_space c Hc).
Qed.

Lemma strip_word (w : text) :
  Forall (fun c => accepts Word c = true) w -> Str.strip w = w.
Proof.
  intros H. unfold Str.strip, Str.rstrip, Str.lstrip.
  rewrite (dropwhile_word w H).
  rewrite (dropwhile_word (rev w)) by now apply Forall_rev.
  apply rev_involutive.
Qed.

Lemma strip_space_word (w : text) :
  Forall (fun c => accepts Word c = true) w -> Str.strip (" " ++ w) = w.
Proof.
  intros H. unfold Str.strip, Str.lstrip. cbn [app Str.dropwhile].
  change (Str.isspace " "%char) with true. cbv iota.
  rewrite (dropwhile_word w H). unfold Str.rstrip.
  rewrite (dropwhile_word (rev w)) by now apply Forall_rev.
  apply rev_involutive.
Qed.

Lemma split_word (w : text) :
  Forall (fun c => accepts Word c = true) w -> Str.split ","%char w = [w].
Proof.
  induction 1 as [|c w Hc Hw IH]; cbn [Str.split]; [reflexivity|].
  now rewrite (word_not_comma c Hc), IH.
Qed.

Lemma split_word_comma (w rest : text) :
  Forall (fun c => accepts Word c = true) w ->
  Str.split ","%char (w ++ "," ++ rest) = w :: Str.split ","%char rest.
Proof.
  induction 1 as [|c w Hc Hw IH]; cbn [app Str.split].
  - reflexivity.
  - rewrite (word_not_comma c Hc). cbn [app] in IH. now rewrite IH.
Qed.

Lemma space_word_split (w : text) :
  Forall (fun c => accepts Word c = true) w ->
  Str.split ","%char (" " ++ w) = [" " ++ w].
Proof.
  intros H. cbn [app Str.split].
  change (Ascii.eqb " "%char ","%char) with false. cbv iota.
  now rewrite (split_word w H).
Qed.

(** The parameter list of [function f(a, b)]. *)
Lemma two_params (a b : text) :
  is_identifier a = true -> is_identifier b = true ->
  (if isnil (a ++ ", " ++ b) then []
   else map Str.strip (Str.split ","%char (a ++ ", " ++ b)))
  = [a; b].
Proof.
  intros Ha Hb.
  apply is_identifier_inv in Ha as [Ha Hal], Hb as [Hb _].
  replace (isnil (a ++ ", " ++ b)) with false
    by (destruct a; [simpl in Hal; lia | reflexivity]).
  change (a ++ ", " ++ b) with (a ++ "," ++ " " ++ b).
  rewrite (split_word_comma a (" " ++ b) Ha), (space_word_split b Hb).
  cbn [map]. now rewrite (strip_word a Ha), (strip_space_word b Hb).
Qed.

Lemma function_match (f args : text) :
  is_identifier f = true -> ~ In LF args ->
  re_match function_pattern ("function " ++ f ++ "(" ++ args ++ ")")
  = Some [f; args].
Proof.
  intros Hf Hlf. apply is_identifier_inv in Hf as [Hf Hfl].
  eassert (H : hd_error (run function_pattern true
                           ("function " ++ f ++ "(" ++ args ++ ")"))
               = Some (_, _, _)).
  { unfold function_pattern.
    eapply hd_seq; [apply hd_lit|].
    eapply hd_seq; [apply hd_grp, hd_rep; [exact Hf|reflexivity|exact Hfl]|].
    eapply hd_seq; [apply hd_lit|].
    apply (hd_rep_backtrack Dot 0 (Lit ")") args ")").
    - now apply no_LF_dot.
    - apply Nat.le_0_l.
    - intros [|[|j]] [H1 H2]; [lia | reflexivity | simpl in H2; lia].
    - reflexivity. }
  apply re_match_hd in H. exact H.
Qed.

Lemma function_line (self : LuaASMParser) (f args : text) :
  is_identifier f = true -> ~ In LF args ->
  classify self ("function " ++ f ++ "(" ++ args ++ ")")
  = Ok (set_current_function self
          (Some {| name := f;
                   params := if isnil args then []
                             else map Str.strip (Str.split ","%char args);
                   body := [] |})).
Proof.
  intros Hf Hlf.
  change (classify self ("function " ++ f ++ "(" ++ args ++ ")"))
    with (_parse_function_definition self
            ("function " ++ f ++ "(" ++ args ++ ")")).
  unfold _parse_function_definition. now rewrite function_match.
Qed.

Lemma strip_function_line (f args : text) :
  Str.strip ("function " ++ f ++ "(" ++ args ++ ")")
  = "function " ++ f ++ "(" ++ args ++ ")".
Proof.
  unfold Str.strip, Str.lstrip.
  change (Str.dropwhile Str.isspace ("function " ++ f ++ "(" ++ args ++ ")"))
    with ("function " ++ f ++ "(" ++ args ++ ")").
  unfold Str.rstrip.
  replace ("function " ++ f ++ "(" ++ args ++ ")")
    with (("function " ++ f ++ "(" ++ args) ++ ")")
    by now rewrite <- !app_assoc.
  rewrite rev_app_distr.
  change (Str.dropwhile Str.isspace
            (rev ")" ++ rev ("function " ++ f ++ "(" ++ args)))
    with (rev ")" ++ rev ("function " ++ f ++ "(" ++ args)).
  now rewrite <- rev_app_distr, rev_involutive.
Qed.

(** A line that is neither [function ...] nor [end] leaves the functions
    table alone and keeps the name and parameters of the open function. *)
Lemma classify_keeps_open_function (self self' : LuaASMParser)
    (line : text) (fd : function_def) :
  Str.startswith "function" line = false -> line <> "end" ->
  current_function self = Some fd ->
  classify self line = Ok self' ->
  functions self' = functions self
  /\ exists body',
      current_function self'
      = Some {| name := name fd; params := params fd; body := body' |}.
Proof.
  intros Hf He Hcur H. unfold classify in H. rewrite Hf in H.
  apply teqb_neq in He. rewrite He in H.
  assert (Hsame : exists body',
             current_function self
             = Some {| name := name fd; params := params fd;
                       body := body' |})
    by (exists (body fd); rewrite Hcur; now destruct fd).
  destruct (Str.startswith "import" line).
  { unfold _parse_import_definition in H.
    destruct (re_match single_import_pattern line);
      [|destruct (re_match multi_import_pattern line);
        [|destruct (re_match local_import_pattern line)]];
      inversion H; now split. }
  destruct (Str.startswith "#!arch[" line).
  { unfold _parse_architecture in H.
    destruct (re_match architecture_pattern line); inversion H; now split. }
  destruct (Str.startswith "#![" line).
  { unfold _parse_directive in H.
    destruct (re_match directive_pattern line); inversion H; now split. }
  destruct (matched (re_match call_pattern line)).
  { inversion H. unfold _parse_function_call. rewrite Hcur.
    split; [reflexivity|]. eexists; reflexivity. }
  destruct (Str.startswith "asm(" line && Str.endswith ")" line).
  { unfold _parse_inline_asm in H.
    destruct (Str.startswith "asm(" line && Str.endswith ")" line);
      inversion H; now split. }
  inversion H. now split.
Qed.

Lemma parse_lines_middle (middle : list text) :
  (forall l, In l middle -> plain_line l) ->
  forall self fd,
    current_function self = Some fd ->
    exists self' body',
      parse_lines self middle = Ok self'
      /\ functions self' = functions self
      /\ current_function self'
         = Some {| name := name fd; params := params fd; body := body' |}.
Proof.
  induction middle as [|l rest IH]; intros Hplain self fd Hcur.
  - exists self, (body fd). repeat split. rewrite Hcur. now destruct fd.
  - assert (Hrest : forall l0, In l0 rest -> plain_line l0)
      by (intros l0 H0; apply Hplain; now right).
    cbn [parse_lines].
    destruct (isnil (Str.strip l)); [now apply IH|].
    destruct (Hplain l (or_introl eq_refl)) as (Hf & He & Hok).
    destruct (Hok self) as [self1 H1]. rewrite H1. cbn [bind].
    destruct (classify_keeps_open_function self self1 (Str.strip l) fd
                Hf He Hcur H1) as [Hfun [body1 Hcur1]].
    destruct (IH Hrest self1 _ Hcur1) as (self' & body' & Hp & Hfun' & Hcur').
    exists self', body'. cbn [name params] in Hcur'.
    repeat split; [exact Hp | congruence | exact Hcur'].
Qed.

Lemma parse_lines_app (l1 l2 : list text) :
  forall self,
    parse_lines self (l1 ++ l2)
    = do self' <- parse_lines self l1; parse_lines self' l2.
Proof.
  induction l1 as [|l l1 IH]; intros self; cbn [app parse_lines bind];
    [reflexivity|].
  destruct (isnil (Str.strip l)); [apply IH|].
  destruct (classify self (Str.strip l)); cbn [bind]; [apply IH|reflexivity].
Qed.

(** From an opening line that the function rule accepts to the next [end],
    over plain lines. *)
Lemma function_block (self : LuaASMParser) (header : text)
    (fd : function_def) (middle : list text) :
  Str.strip header = header -> header <> [] ->
  classify self header = Ok (set_current_function self (Some fd)) ->
  (forall l, In l middle -> plain_line l) ->
  exists self' body',
    parse_lines self (header :: middle ++ ["end"]) = Ok self'
    /\ functions self'
       = dict_set (functions self) (name fd)
           {| name := name fd; params := params fd; body := body' |}
    /\ current_function self' = None.
Proof.
  intros Hs Hne Hc Hplain. cbn [parse_lines]. rewrite Hs.
  destruct header as [|c header]; [contradiction|]. cbn [isnil].
  rewrite Hc. cbn [bind]. rewrite parse_lines_app.
  destruct (parse_lines_middle middle Hplain
              (set_current_function self (Some fd)) fd eq_refl)
    as (self1 & body' & Hp & Hfun & Hcur).
  rewrite Hp. cbn [bind].
  exists (_end_function_definition self1), body'.
  split; [reflexivity|].
  unfold _end_function_definition. rewrite Hcur, Hfun. now split.
Qed.

(** C8.  A line [function f(a, b)], then lines that neither open nor close a
    function (and on which no rule raises), then [end]: the parse goes
    through, and the functions table is the one from before with the entry
    under key [f] set to the record of name [f] and parameters [a; b].  From
    the empty table of a new parser that is the only entry.  With [function
    f()] the parameter list is empty. *)
Theorem function_pair_recorded
    (self : LuaASMParser) (f a b : text) (middle : list text) :
  is_identifier f = true -> is_identifier a = true ->
  is_identifier b = true ->
  (forall l, In l middle -> plain_line l) ->
  (exists self' body',
      parse_lines self
        (("function " ++ f ++ "(" ++ a ++ ", " ++ b ++ ")")
           :: middle ++ ["end"])
      = Ok self'
      /\ functions self'
         = dict_set (functions self) f
             {| name := f; params := [a; b]; body := body' |}
      /\ (functions self = [] ->
          functions self'
          = [(f, {| name := f; params := [a; b]; body := body' |})]))
  /\ (exists self' body',
         parse_lines self (("function " ++ f ++ "()") :: middle ++ ["end"])
         = Ok self'
         /\ functions self'
            = dict_set (functions self) f
                {| name := f; params := []; body := body' |}
         /\ (functions self = [] ->
             functions self'
             = [(f, {| name := f; params := []; body := body' |})])).
Proof.
  intros Hf Ha Hb Hplain.
  assert (Hlf : ~ In LF (a ++ ", " ++ b)).
  { apply is_identifier_inv in Ha as [Ha _], Hb as [Hb _].
    rewrite Forall_forall in Ha, Hb.
    intros H. apply in_app_or in H as [H|H].
    - now apply (word_not_LF LF (Ha LF H)).
    - destruct H as [H|[H|H]]; try discriminate H.
      now apply (word_not_LF LF (Hb LF H)). }
  split.
  - destruct (function_block self
                ("function " ++ f ++ "(" ++ (a ++ ", " ++ b) ++ ")")
                {| name := f; params := [a; b]; body := [] |} middle)
      as (self' & body' & Hp & Hfun & _).
    + apply strip_function_line.
    + discriminate.
    + rewrite (function_line self f (a ++ ", " ++ b) Hf Hlf).
      now rewrite (two_params a b Ha Hb).
    + exact Hplain.
    + exists self', body'. rewrite <- !app_assoc in Hp.
      split; [exact Hp|]. split; [exact Hfun|].
      intros He. rewrite Hfun, He. reflexivity.
  - destruct (function_block self ("function " ++ f ++ "(" ++ [] ++ ")")
                {| name := f; params := []; body := [] |} middle)
      as (self' & body' & Hp & Hfun & _).
    + apply strip_function_line.
    + discriminate.
    + apply (function_line self f [] Hf). intros [].
    + exact Hplain.
    + exists self', body'.
      split; [exact Hp|]. split; [exact Hfun|].
      intros He. rewrite Hfun, He. reflexivity.
Qed.

Lemma function_pair_recorded_witness :
  (exists self' body',
      parse init ("function f(a, b)" ++ [LF] ++ "g(a)" ++ [LF] ++ "end")
      = Ok self'
      /\ functions self'
         = [("f", {| name := "f"; params := ["a"; "b"]; body := body' |})])
  /\ (exists self' body',
         parse init ("function f()" ++ [LF] ++ "g(a)" ++ [LF] ++ "end")
         = Ok self'
         /\ functions self'
            = [("f", {| name := "f"; params := []; body := body' |})]).
Proof.
  assert (Hplain : forall l, In l ["g(a)"] -> plain_line l).
  { intros l [<-|[]]. split; [reflexivity|]. split; [discriminate|].
    intros self. eexists. reflexivity. }
  destruct (function_pair_recorded init "f" "a" "b" ["g(a)"]
              eq_refl eq_refl eq_refl Hplain)
    as [(s1 & b1 & Hp1 & _ & H1) (s2 & b2 & Hp2 & _ & H2)].
  split.
  - exists s1, b1. split; [exact Hp1 | exact (H1 eq_refl)].
  - exists s2, b2. split; [exact Hp2 | exact (H2 eq_refl)].
Defined.

(** * Further properties of the translator *)

(** ** What a match tells about the line *)

Lemma re_match_inv (r : regex) (s : text) (g : list text) :
  re_match r s = Some g -> exists m s', In (m, g, s') (run r true s).
Proof.
  unfold re_match. destruct (run r true s) as [|[[m g0] s'] t]; [easy|].
  intros [= <-]. exists m, s'. now left.
Qed.

Lemma run_seq_inv (r1 r2 : regex) (bos : bool) (s : text) (w : way) :
  In w (run (r1 >> r2) bos s) ->
  exists m1 g1 s1 m2 g2 s2,
    In (m1, g1, s1) (run r1 bos s)
    /\ In (m2, g2, s2) (run r2 (bos && isnil m1) s1)
    /\ w = (m1 ++ m2, g1 ++ g2, s2).
Proof.
  cbn [run]. intros H. apply in_flat_map in H as [[[m1 g1] s1] [H1 H]].
  apply in_map_iff in H as [[[m2 g2] s2] [<- H2]].
  now exists m1, g1, s1, m2, g2, s2.
Qed.

Lemma run_lit_inv (t s : text) (bos : bool) (w : way) :
  In w (run (Lit t) bos s) ->
  Str.startswith t s = true /\ w = (t, [], skipn (length t) s).
Proof.
  cbn [run]. destruct (Str.startswith t s); [|easy].
  intros [<-|[]]. now split.
Qed.

Lemma run_grp_inv (r : regex) (bos : bool) (s : text) (w : way) :
  In w (run (Grp r) bos s) ->
  exists m g s', In (m, g, s') (run r bos s) /\ w = (m, m :: g, s').
Proof.
  cbn [run]. intros H. apply in_map_iff in H as [[[m g] s'] [<- H]].
  now exists m, g, s'.
Qed.

Lemma run_alt_inv (r1 r2 : regex) (bos : bool) (s : text) (w : way) :
  In w (run (Alt r1 r2) bos s) ->
  In w (run r1 bos s) \/ In w (run r2 bos s).
Proof. cbn [run]. apply in_app_or. Qed.

Lemma run_rep_inv (k : cclass) (least : nat) (bos : bool) (s : text)
    (w : way) :
  In w (run (Rep k least) bos s) ->
  exists n, least <= n <= span k s /\ w = (firstn n s, [], skipn n s).
Proof.
  cbn [run]. intros H. apply in_map_iff in H as [n [<- H]].
  apply in_countdown_inv in H. now exists n.
Qed.

(** The first [n] characters of a text lie in the class when [n] is within
    its span. *)
Lemma firstn_span (k : cclass) (s : text) :
  forall n, n <= span k s ->
  forallb (accepts k) (firstn n s) = true /\ length (firstn n s) = n.
Proof.
  induction s as [|c s IH]; intros n Hn; cbn [span] in Hn.
  - assert (n = 0) by lia. subst. now split.
  - destruct n as [|n]; [now split|].
    destruct (accepts k c) eqn:Ec; [|lia].
    destruct (IH n ltac:(lia)) as [H1 H2].
    cbn [firstn forallb length]. rewrite Ec, H1, H2. now split.
Qed.

(** What a repetition takes is a run of at least [least] characters of its
    class. *)
Lemma run_rep_taken (k : cclass) (least : nat) (bos : bool) (s : text)
    (w : way) :
  In w (run (Rep k least) bos s) ->
  exists m,
    forallb (accepts k) m = true /\ least <= length m
    /\ w = (m, [], skipn (length m) s).
Proof.
  intros H. apply run_rep_inv in H as (n & [Hn1 Hn2] & ->).
  destruct (firstn_span k s n Hn2) as [Hall Hlen].
  exists (firstn n s). rewrite Hlen. now repeat split.
Qed.

Lemma hex_numeral_intro (h : text) :
  forallb (accepts hexdigits) h = true -> 1 <= length h ->
  is_numeral ("0x" ++ h) = true.
Proof.
  intros Hall Hlen. unfold is_numeral, is_hex_numeral.
  change (Str.startswith "0x" ("0x" ++ h)) with true.
  change (skipn 2 ("0x" ++ h)) with h. rewrite Hall.
  destruct h; [simpl in Hlen; lia | reflexivity].
Qed.

Lemma decimal_numeral_intro (d : text) :
  forallb (accepts Digit) d = true -> 1 <= length d ->
  is_numeral d = true.
Proof.
  intros Hall Hlen. unfold is_numeral, is_decimal_numeral.
  change (forallb is_digit d = true) in Hall. rewrite Hall.
  destruct d; [simpl in Hlen; lia|]. cbn [isnil negb andb].
  apply orb_true_r.
Qed.

(** What [\w+] in a group captured is an identifier. *)
Lemma word_group_inv (bos : bool) (s : text) (w : way) :
  In w (run (Grp (Rep Word 1)) bos s) ->
  exists id, is_identifier id = true /\ w = (id, [id], skipn (length id) s).
Proof.
  intros H. apply run_grp_inv in H as (m & g & s' & H & ->).
  apply run_rep_taken in H as (id & Hall & Hlen & [= -> -> ->]).
  exists id. split; [|reflexivity].
  change (forallb is_word id = true) in Hall.
  unfold is_identifier. rewrite Hall.
  destruct id; [simpl in Hlen; lia | reflexivity].
Qed.

(** ** The directive table *)

Lemma numeral_group_inv (bos : bool) (s : text) (w : way) :
  In w (run (Grp (Alt (Lit "0x" >> Rep hexdigits 1) (Rep Digit 1))) bos s) ->
  exists v s', is_numeral v = true /\ w = (v, [v], s').
Proof.
  intros H. apply run_grp_inv in H as (m & g & s' & H & ->).
  apply run_alt_inv in H as [H|H].
  - apply run_seq_inv in H
      as (m1 & g1 & s1 & m2 & g2 & s2 & H1 & H2 & E).
    apply run_lit_inv in H1 as [_ E1].
    apply run_rep_taken in H2 as (h & Hall & Hlen & E2).
    injection E1 as -> -> _. injection E2 as -> -> _.
    injection E as -> -> ->.
    eexists _, _. split; [|reflexivity].
    now apply hex_numeral_intro.
  - apply run_rep_taken in H as (d & Hall & Hlen & [= -> -> ->]).
    eexists _, _. split; [|reflexivity].
    now apply decimal_numeral_intro.
Qed.

Lemma directive_match_inv (line : text) (g : list text) :
  re_match directive_pattern line = Some g ->
  exists dname value,
    g = [dname; value]
    /\ In dname ["start"; "pad"; "sign"] /\ is_numeral value = true.
Proof.
  intros H. apply re_match_inv in H as (m & s' & H).
  unfold directive_pattern in H.
  apply run_seq_inv in H
    as (m1 & g1 & s1 & m2 & g2 & s2 & H1 & H & [= -> -> ->]).
  apply run_lit_inv in H1 as [_ [= -> -> ->]].
  apply run_seq_inv in H
    as (m1 & g1 & s1 & m3 & g3 & s3 & H1 & H & [= -> -> ->]).
  apply run_grp_inv in H1 as (dn & gd & sd & H1 & [= -> -> ->]).
  assert (Hd : In dn ["start"; "pad"; "sign"] /\ gd = []).
  { apply run_alt_inv in H1 as [H1|H1];
      [|apply run_alt_inv in H1 as [H1|H1]];
      apply run_lit_inv in H1 as [_ [= -> -> ->]]; split;
      simpl; auto. }
  destruct Hd as [Hd ->].
  apply run_seq_inv in H
    as (m1 & g1 & s1 & m4 & g4 & s4 & H2 & H & [= -> -> ->]).
  apply run_lit_inv in H2 as [_ [= -> -> ->]].
  apply run_seq_inv in H
    as (m1 & g1 & s1 & m5 & g5 & s5 & H3 & H & [= -> -> ->]).
  apply numeral_group_inv in H3 as (v & sv & Hv & [= -> -> ->]).
  apply run_lit_inv in H as [_ [= -> -> ->]].
  now exists dn, v.
Qed.

(** ** Dictionaries *)

Lemma dict_get_set_same {V : Type} (d : dict V) (k : text) (v : V) :
  dict_get (dict_set d k v) k = Some v.
Proof.
  induction d as [|[k' v'] d IH]; cbn [dict_set dict_get].
  - now rewrite teqb_refl.
  - destruct (teqb k' k) eqn:E; cbn [dict_get]; now rewrite E.
Qed.

Lemma dict_get_set_other {V : Type} (d : dict V) (k k' : text) (v : V) :
  k' <> k -> dict_get (dict_set d k v) k' = dict_get d k'.
Proof.
  intros Hne. induction d as [|[k0 v0] d IH]; cbn [dict_set dict_get].
  - destruct (teqb k k') eqn:E; [|reflexivity].
    apply teqb_eq in E. congruence.
  - destruct (teqb k0 k) eqn:E; cbn [dict_get].
    + apply teqb_eq in E. subst k0.
      destruct (teqb k k') eqn:E'; [|reflexivity].
      apply teqb_eq in E'. congruence.
    + now rewrite IH.
Qed.

Lemma dict_keys_set_present {V : Type} (d : dict V) (k : text) (v : V) :
  In k (map fst d) -> map fst (dict_set d k v) = map fst d.
Proof.
  induction d as [|[k' v'] d IH]; cbn [dict_set map fst]; [easy|].
  intros H. destruct (teqb k' k) eqn:E; [reflexivity|].
  cbn [map fst]. f_equal. apply IH. destruct H as [H|H]; [|exact H].
  apply teqb_neq in E. congruence.
Qed.

Lemma dict_keys_set_new {V : Type} (d : dict V) (k : text) (v : V) :
  ~ In k (map fst d) -> map fst (dict_set d k v) = map fst d ++ [k].
Proof.
  induction d as [|[k' v'] d IH]; cbn [dict_set map fst app];
    [reflexivity|].
  intros H. destruct (teqb k' k) eqn:E.
  - apply teqb_eq in E. subst. exfalso. apply H. now left.
  - cbn [map fst]. f_equal. apply IH. intros Hin. apply H. now right.
Qed.

Lemma text_in_dec (k : text) (l : list text) : {In k l} + {~ In k l}.
Proof. apply in_dec, list_eq_dec, ascii_dec. Qed.

Lemma dict_set_NoDup {V : Type} (d : dict V) (k : text) (v : V) :
  NoDup (map fst d) -> NoDup (map fst (dict_set d k v)).
Proof.
  intros H. destruct (text_in_dec k (map fst d)) as [Hin|Hout].
  - now rewrite dict_keys_set_present.
  - rewrite dict_keys_set_new by exact Hout.
    apply NoDup_app; [exact H | repeat constructor; easy|].
    intros x Hx [<-|[]]. contradiction.
Qed.

Lemma dict_set_Forall {V : Type} (P : text * V -> Prop)
    (d : dict V) (k : text) (v : V) :
  Forall P d -> P (k, v) -> Forall P (dict_set d k v).
Proof.
  intros Hd Hk. induction Hd as [|[k' v'] d Hp Hd IH]; cbn [dict_set].
  - now constructor.
  - destruct (teqb k' k) eqn:E.
    + apply teqb_eq in E. subst. now constructor.
    + now constructor.
Qed.

Lemma dict_get_In {V : Type} (d : dict V) (k : text) (v : V) :
  dict_get d k = Some v -> In (k, v) d.
Proof.
  induction d as [|[k' v'] d IH]; cbn [dict_get]; [easy|].
  destruct (teqb k' k) eqn:E.
  - apply teqb_eq in E. intros [= ->]. subst. now left.
  - intros H. right. now apply IH.
Qed.

Lemma dict_get_key {V : Type} (d : dict V) (k : text) :
  In k (map fst d) -> has_key d k = true.
Proof.
  unfold has_key.
  induction d as [|[k' v'] d IH]; cbn [map fst dict_get]; [easy|].
  intros [->|H]; [now rewrite teqb_refl|].
  destruct (teqb k' k); [reflexivity | now apply IH].
Qed.

(** ** What one line can change *)

Lemma architecture_match_inv (line : text) (g : list text) :
  re_match architecture_pattern line = Some g ->
  exists a, g = [a] /\ a <> [] /\ ~ In LF a.
Proof.
  intros H. apply re_match_inv in H as (m & s' & H).
  unfold architecture_pattern in H.
  apply run_seq_inv in H
    as (m1 & g1 & s1 & m2 & g2 & s2 & H1 & H & [= -> -> ->]).
  apply run_lit_inv in H1 as [_ [= -> -> ->]].
  apply run_seq_inv in H
    as (m1 & g1 & s1 & m3 & g3 & s3 & H1 & H & [= -> -> ->]).
  apply run_grp_inv in H1 as (a & ga & sa & H1 & [= -> -> ->]).
  apply run_rep_taken in H1 as (a' & Hall & Hlen & [= -> -> ->]).
  apply run_lit_inv in H as [_ [= -> -> ->]].
  exists a'. split; [reflexivity|]. split.
  - destruct a'; [simpl in Hlen; lia | discriminate].
  - intros Hin. rewrite forallb_forall in Hall.
    specialize (Hall LF Hin). discriminate Hall.
Qed.

Lemma function_match_inv (line : text) (g : list text) :
  re_match function_pattern line = Some g ->
  exists f args, g = [f; args] /\ is_identifier f = true /\ ~ In LF args.
Proof.
  intros H. apply re_match_inv in H as (m & s' & H).
  unfold function_pattern in H.
  apply run_seq_inv in H
    as (m1 & g1 & s1 & m2 & g2 & s2 & H1 & H & [= -> -> ->]).
  apply run_lit_inv in H1 as [_ [= -> -> ->]].
  apply run_seq_inv in H
    as (m1 & g1 & s1 & m3 & g3 & s3 & H1 & H & [= -> -> ->]).
  apply word_group_inv in H1 as (f & Hf & [= -> -> ->]).
  apply run_seq_inv in H
    as (m1 & g1 & s1 & m4 & g4 & s4 & H2 & H & [= -> -> ->]).
  apply run_lit_inv in H2 as [_ [= -> -> ->]].
  apply run_seq_inv in H
    as (m1 & g1 & s1 & m5 & g5 & s5 & H3 & H & [= -> -> ->]).
  apply run_grp_inv in H3 as (a & ga & sa & H3 & [= -> -> ->]).
  apply run_rep_taken in H3 as (args & Hall & _ & [= -> -> ->]).
  apply run_lit_inv in H as [_ [= -> -> ->]].
  exists f, args. split; [reflexivity|]. split; [exact Hf|].
  intros Hin. rewrite forallb_forall in Hall.
  specialize (Hall LF Hin). discriminate Hall.
Qed.

(** The successful outcomes of the [if]/[elif] chain: each rule rewrites
    one component of the parser object. *)
Lemma classify_cases (self self' : LuaASMParser) (line : text) :
  classify self line = Ok self' ->
  (exists i, self' = set_imports self i)
  \/ (exists a, a <> [] /\ ~ In LF a
                /\ self' = set_architecture self (Some a))
  \/ (exists dname value,
         In dname ["start"; "pad"; "sign"] /\ is_numeral value = true
         /\ self' = set_directives self
                      (dict_set (directives self) dname (Some value)))
  \/ (exists f ps,
         is_identifier f = true
         /\ self' = set_current_function self
                      (Some {| name := f; params := ps; body := [] |}))
  \/ self' = _end_function_definition self
  \/ self' = _parse_function_call self line
  \/ (exists a, self' = set_inline_asm self a)
  \/ self' = _parse_executable_code self line.
Proof.
  unfold classify. intros H.
  destruct (Str.startswith "import" line).
  { left. unfold _parse_import_definition in H.
    destruct (re_match single_import_pattern line);
      [|destruct (re_match multi_import_pattern line);
        [|destruct (re_match local_import_pattern line)]];
      inversion H; eexists; reflexivity. }
  destruct (Str.startswith "#!arch[" line).
  { right; left. unfold _parse_architecture in H.
    destruct (re_match architecture_pattern line) as [g|] eqn:Em;
      [|discriminate].
    apply architecture_match_inv in Em as (a & -> & Ha & Hlf).
    inversion H. now exists a. }
  destruct (Str.startswith "#![" line).
  { right; right; left. unfold _parse_directive in H.
    destruct (re_match directive_pattern line) as [g|] eqn:Em;
      [|discriminate].
    apply directive_match_inv in Em as (dn & v & -> & Hd & Hv).
    inversion H. now exists dn, v. }
  destruct (Str.startswith "function" line).
  { right; right; right; left. unfold _parse_function_definition in H.
    destruct (re_match function_pattern line) as [g|] eqn:Em;
      [|discriminate].
    apply function_match_inv in Em as (f & args & -> & Hf & _).
    inversion H. eexists f, _. split; [exact Hf | reflexivity]. }
  destruct (teqb line "end").
  { inversion H. tauto. }
  destruct (matched (re_match call_pattern line)).
  { inversion H. tauto. }
  destruct (Str.startswith "asm(" line && Str.endswith ")" line) eqn:Ee.
  { unfold _parse_inline_asm in H. rewrite Ee in H. inversion H.
    do 6 right. left. eexists; reflexivity. }
  inversion H. tauto.
Qed.

Lemma parse_lines_invariant (P : LuaASMParser -> Prop) :
  (forall self line self', P self -> classify self line = Ok self' -> P self') ->
  forall lines self self',
    P self -> parse_lines self lines = Ok self' -> P self'.
Proof.
  intros Hstep. induction lines as [|l rest IH]; intros self self' HP H;
    cbn [parse_lines] in H.
  - now inversion H; subst.
  - destruct (isnil (Str.strip l)); [now apply (IH self)|].
    destruct (classify self (Str.strip l)) as [self1|e] eqn:Hc;
      cbn [bind] in H; [|discriminate].
    apply (IH self1); [|exact H]. now apply (Hstep self (Str.strip l)).
Qed.

(** ** Invariants of a parse *)

Lemma numeral_not_nil (v : text) : is_numeral v = true -> v <> [].
Proof. intros H ->. discriminate H. Qed.

Lemma classify_directives_wf (self self' : LuaASMParser) (line : text) :
  directives_wf (directives self) -> classify self line = Ok self' ->
  directives_wf (directives self').
Proof.
  intros Hwf H. apply classify_cases in H
    as [(i & ->) | [(a & _ & _ & ->) | [(dn & v & Hd & Hv & ->) |
       [(f & ps & _ & ->) | [-> | [-> | [(a & ->) | ->]]]]]]];
    try exact Hwf.
  - destruct Hwf as [Hkeys Hvals]. split; cbn [directives set_directives].
    + rewrite dict_keys_set_present; [exact Hkeys|]. rewrite Hkeys.
      destruct Hd as [<-|[<-|[<-|[]]]]; simpl; auto.
    + apply dict_set_Forall; [exact Hvals | now apply numeral_not_nil].
  - unfold _end_function_definition.
    now destruct (current_function self).
  - unfold _parse_function_call. now destruct (current_function self).
Qed.

Lemma classify_functions_wf (self self' : LuaASMParser) (line : text) :
  functions_wf self -> classify self line = Ok self' -> functions_wf self'.
Proof.
  intros Hwf H. apply classify_cases in H
    as [(i & ->) | [(a & _ & _ & ->) | [(dn & v & Hd & Hv & ->) |
       [(f & ps & Hf & ->) | [-> | [-> | [(a & ->) | ->]]]]]]];
    try exact Hwf.
  - destruct Hwf as (Ha & Hn & _). now repeat split.
  - unfold _end_function_definition, functions_wf in *.
    destruct (current_function self) as [fd|] eqn:Ec; [|now rewrite Ec].
    destruct Hwf as (Ha & Hn & Hid).
    cbn [functions current_function set_functions set_current_function].
    repeat split.
    + apply dict_set_Forall; [exact Ha | now split].
    + now apply dict_set_NoDup.
  - unfold _parse_function_call, functions_wf in *.
    destruct (current_function self) as [fd|] eqn:Ec.
    + cbn [functions current_function set_current_function name].
      exact Hwf.
    + cbn [functions current_function set_code_outside_functions].
      now rewrite Ec.
Qed.

Lemma parse_wf (code : text) (self : LuaASMParser) :
  parse init code = Ok self ->
  directives_wf (directives self) /\ functions_wf self
  /\ inline_asm self = [].
Proof.
  intros H. unfold parse in H. split; [|split].
  - apply (parse_lines_invariant
             (fun s => directives_wf (directives s))
             (fun s l s' => classify_directives_wf s s' l)
             (Str.splitlines (Str.strip code)) init self); [|exact H].
    split; [reflexivity|]. repeat constructor.
  - apply (parse_lines_invariant functions_wf
             (fun s l s' => classify_functions_wf s s' l)
             (Str.splitlines (Str.strip code)) init self); [|exact H].
    repeat split; constructor.
  - apply (parse_lines_inline_asm (Str.splitlines (Str.strip code)))
      in H; [exact H|].
    intros l Hl. now apply splitlines_no_LF with (s := Str.strip code).
Qed.

Lemma directives_wf_has (self : LuaASMParser) :
  directives_wf (directives self) -> has_directives self = true.
Proof.
  intros [Hkeys _]. unfold has_directives. cbn [forallb].
  rewrite !dict_get_key; [reflexivity| | |]; rewrite Hkeys; simpl; auto.
Qed.



Lemma label_lines_NoDup (l : list text) :
  NoDup l -> NoDup (map (fun n => n ++ ":") l).
Proof.
  induction 1 as [|n l Hn Hl IH]; cbn [map]; constructor; [|exact IH].
  intros Hin. apply in_map_iff in Hin as [n' [E Hn']].
  apply app_inv_tail in E. now subst.
Qed.

(** X2.  Whatever the source text, after a completed parse the keys of the
    function table are pairwise distinct, every entry stands under its own
    [name], and the names are identifiers; so the label lines [<name>:] of
    the functions are distinct from one another.  (The entry label
    [_start:] of the fixed section is another matter: a function named
    [_start] repeats it.) *)
Theorem function_labels_distinct (code : text) (self : LuaASMParser) :
  parse init code = Ok self ->
  NoDup (map name (dict_values (functions self)))
  /\ NoDup (map (fun f => name f ++ ":") (dict_values (functions self)))
  /\ Forall (fun f => is_identifier (name f) = true)
            (dict_values (functions self))
  /\ (forall k f, dict_get (functions self) k = Some f -> name f = k).
Proof.
  intros H. destruct (parse_wf code self H) as (_ & (Ha & Hn & _) & _).
  assert (Hmap : map name (dict_values (functions self))
                 = map fst (functions self)).
  { unfold dict_values. rewrite map_map.
    apply map_ext_in. intros kv Hkv. rewrite Forall_forall in Ha.
    now destruct (Ha kv Hkv) as [-> _]. }
  split; [now rewrite Hmap|]. split.
  { rewrite <- (map_map name (fun n => n ++ ":")).
    apply label_lines_NoDup. now rewrite Hmap. }
  split.
  - unfold dict_values. apply Forall_map. rewrite Forall_forall in *.
    intros kv Hkv. destruct (Ha kv Hkv) as [E Hid]. now rewrite <- E.
  - intros k f Hg. apply dict_get_In in Hg. rewrite Forall_forall in Ha.
    now destruct (Ha _ Hg) as [E _].
Qed.

Lemma function_labels_distinct_witness :
  exists self,
    parse init ("function f(a)" ++ [LF] ++ "end" ++ [LF] ++ "function g()"
                ++ [LF] ++ "end" ++ [LF] ++ "function f(b, c)" ++ [LF]
                ++ "end")
    = Ok self
    /\ map (fun f => name f ++ ":") (dict_values (functions self))
       = ["f:"; "g:"]
    /\ NoDup (map (fun f => name f ++ ":") (dict_values (functions self))).
Proof.
  eexists. split; [reflexivity|]. split; [reflexivity|].
  apply (function_labels_distinct
           ("function f(a)" ++ [LF] ++ "end" ++ [LF] ++ "function g()"
            ++ [LF] ++ "end" ++ [LF] ++ "function f(b, c)" ++ [LF]
            ++ "end") _ eq_refl).
Defined.

Lemma parse_lines_raises_syntax (lines : list text) :
  forall self e,
    parse_lines self lines = Raise e -> exists msg, e = SyntaxError msg.
Proof.
  induction lines as [|l rest IH]; intros self e H; cbn [parse_lines] in H;
    [discriminate|].
  destruct (isnil (Str.strip l)); [now apply (IH self)|].
  destruct (classify self (Str.strip l)) as [self1|e1] eqn:Hc;
    cbn [bind] in H.
  - now apply (IH self1).
  - inversion H; subst. now apply classify_raises_syntax in Hc.
Qed.

(** X3.  [parse] raises nothing but [SyntaxError], and [generate_code]
    never raises on an object that [parse] returned: it returns the sections
    of that object joined by newlines, and these, encoded, are the bytes
    that [main] hands to the write.  (Failures of the file operations of
    [main] are outside the model.) *)
Theorem generation_succeeds_after_parse (code : text) :
  (forall e, parse init code = Raise e -> exists msg, e = SyntaxError msg)
  /\ (forall self,
         parse init code = Ok self ->
         generate_code self = Some (Ok (Str.join [LF] (sections self)))
         /\ main code
            = Some (Written (utf8 (Str.join [LF] (sections self))))).
Proof.
  split.
  - intros e Hp. unfold parse in Hp.
    now apply parse_lines_raises_syntax in Hp.
  - intros self Hp. destruct (parse_wf code self Hp) as (Hd & _ & Hn).
    pose proof (generate_code_sections self (directives_wf_has self Hd) Hn)
      as Hg.
    split; [exact Hg|]. unfold main. now rewrite Hp, Hg.
Qed.

Lemma generation_succeeds_after_parse_witness :
  exists self,
    parse init ("#!arch[x16]" ++ [LF] ++ "cli" ++ [LF] ++ "#![sign(0xAA55)]")
    = Ok self
    /\ generate_code self
       = Some (Ok (Str.join [LF]
                     ["BITS 16"; "_start:"; "  push 2"; "  push 3";
                      "  push 5"; "  call add"; "  add esp, 12"; "  cli";
                      "  dw 0xAA55  ; Signature"])).
Proof.
  eexists. split; [reflexivity|].
  apply (proj2 (generation_succeeds_after_parse
                  ("#!arch[x16]" ++ [LF] ++ "cli" ++ [LF]
                   ++ "#![sign(0xAA55)]")) _ eq_refl).
Defined.

(** ** Errors of a parse *)

Lemma classify_raise_message (self : LuaASMParser) (line : text) (e : exn) :
  classify self line = Raise e ->
  e = SyntaxError ("Invalid import statement: " ++ line)
  \/ e = SyntaxError ("Invalid architecture definition: " ++ line)
  \/ e = SyntaxError ("Invalid directive format: " ++ line)
  \/ e = SyntaxError ("Invalid function definition: " ++ line).
Proof.
  unfold classify, _parse_import_definition, _parse_architecture,
    _parse_directive, _parse_function_definition, _parse_inline_asm.
  intros H.
  repeat match type of H with
         | context [if ?b then _ else _] => destruct b
         | context [match ?o with Some _ => _ | None => _ end] => destruct o
         end;
    inversion H; tauto.
Qed.

(** X4.  A parse that raises stops at the first line on which a rule
    raises: the lines before it were processed without error, the exception
    is the [SyntaxError] of the import, architecture, directive or function
    rule and carries that line, stripped, and the lines after it play no
    part. *)
Theorem parse_error_first_bad_line (lines : list text) :
  forall self e,
    parse_lines self lines = Raise e ->
    exists before bad after self1,
      lines = before ++ bad :: after
      /\ parse_lines self before = Ok self1
      /\ classify self1 (Str.strip bad) = Raise e
      /\ (e = SyntaxError ("Invalid import statement: " ++ Str.strip bad)
          \/ e = SyntaxError
                   ("Invalid architecture definition: " ++ Str.strip bad)
          \/ e = SyntaxError ("Invalid directive format: " ++ Str.strip bad)
          \/ e = SyntaxError
                   ("Invalid function definition: " ++ Str.strip bad))
      /\ forall after',
          parse_lines self (before ++ bad :: after') = Raise e.
Proof.
  induction lines as [|l rest IH]; intros self e H; cbn [parse_lines] in H;
    [discriminate|].
  destruct (isnil (Str.strip l)) eqn:En.
  - destruct (IH self e H) as (before & bad & after & s1 & -> & Hb & Hc
                               & Hm & Hff).
    exists (l :: before), bad, after, s1. cbn [app parse_lines].
    rewrite En. repeat split; try assumption.
  - destruct (classify self (Str.strip l)) as [self1|e1] eqn:Hc;
      cbn [bind] in H.
    + destruct (IH self1 e H) as (before & bad & after & s1 & -> & Hb & Hc1
                                  & Hm & Hff).
      exists (l :: before), bad, after, s1. cbn [app parse_lines].
      rewrite En, Hc. cbn [bind]. repeat split; try assumption.
    + inversion H; subst e1.
      exists [], l, rest, self. cbn [app parse_lines].
      rewrite En, Hc. cbn [bind].
      repeat split; try reflexivity; try assumption.
      now apply classify_raise_message in Hc.
Qed.

Lemma parse_error_first_bad_line_witness :
  exists before bad after self1,
    ["#!arch[x86]"; "  importer(1)"; "#![foo(1)]"] = before ++ bad :: after
    /\ parse_lines init before = Ok self1
    /\ classify self1 (Str.strip bad)
       = Raise (SyntaxError "Invalid import statement: importer(1)")
    /\ forall after',
        parse_lines init (before ++ bad :: after')
        = Raise (SyntaxError "Invalid import statement: importer(1)").
Proof.
  destruct (parse_error_first_bad_line
              ["#!arch[x86]"; "  importer(1)"; "#![foo(1)]"] init
              (SyntaxError "Invalid import statement: importer(1)") eq_refl)
    as (before & bad & after & s1 & E & Hb & Hc & _ & Hff).
  now exists before, bad, after, s1.
Defined.

(** ** White space around lines *)

Lemma dropwhile_spaces (ws s : text) :
  forallb Str.isspace ws = true ->
  Str.dropwhile Str.isspace (ws ++ s) = Str.dropwhile Str.isspace s.
Proof.
  induction ws as [|c ws IH]; cbn [forallb app Str.dropwhile];
    [reflexivity|].
  intros H. apply andb_true_iff in H as [Hc Hws]. rewrite Hc. now apply IH.
Qed.

Lemma forallb_rev (f : ascii -> bool) (s : text) :
  forallb f s = true -> forallb f (rev s) = true.
Proof.
  rewrite !forallb_forall. intros H c Hc. apply H. now apply in_rev.
Qed.

Lemma rstrip_spaces (s ws : text) :
  forallb Str.isspace ws = true -> Str.rstrip (s ++ ws) = Str.rstrip s.
Proof.
  intros H. unfold Str.rstrip. rewrite rev_app_distr.
  now rewrite dropwhile_spaces by now apply forallb_rev.
Qed.

Lemma strip_trailing_spaces (l ws : text) :
  forallb Str.isspace ws = true -> Str.strip (l ++ ws) = Str.strip l.
Proof.
  intros H. unfold Str.strip, Str.lstrip.
  induction l as [|c l IH]; cbn [app Str.dropwhile].
  - rewrite <- (app_nil_r ws) at 1. rewrite dropwhile_spaces by exact H.
    reflexivity.
  - destruct (Str.isspace c); [exact IH|].
    now apply (rstrip_spaces (c :: l)).
Qed.

Lemma strip_padded (ws1 l ws2 : text) :
  forallb Str.isspace ws1 = true -> forallb Str.isspace ws2 = true ->
  Str.strip (ws1 ++ l ++ ws2) = Str.strip l.
Proof.
  intros H1 H2. rewrite <- (strip_trailing_spaces l ws2 H2).
  unfold Str.strip, Str.lstrip. now rewrite dropwhile_spaces.
Qed.

(** X5.  The parse does not depend on the white space around lines or on
    blank lines: putting white space before and after every line, or
    removing the lines that are blank after stripping, leaves the result
    (the object or the exception) the same. *)
Theorem parse_ignores_padding (ws1 ws2 : text) (lines : list text) :
  forallb Str.isspace ws1 = true -> forallb Str.isspace ws2 = true ->
  forall self,
    parse_lines self (map (fun l => ws1 ++ l ++ ws2) lines)
    = parse_lines self lines
    /\ parse_lines self
         (filter (fun l => negb (isnil (Str.strip l))) lines)
       = parse_lines self lines.
Proof.
  intros H1 H2. induction lines as [|l rest IH]; intros self;
    [now split|].
  cbn [map filter parse_lines]. rewrite (strip_padded ws1 l ws2 H1 H2).
  destruct (isnil (Str.strip l)) eqn:En; cbn [negb].
  - apply IH.
  - cbn [parse_lines]. rewrite En.
    destruct (classify self (Str.strip l)) as [self1|e]; cbn [bind];
      [apply IH | now split].
Qed.

Lemma parse_ignores_padding_witness :
  parse_lines init
    (map (fun l => [" "%char; "009"%char] ++ l ++ "  ")
         ["function f(a)"; ""; "g(a)"; "end"])
  = parse_lines init ["function f(a)"; ""; "g(a)"; "end"]
  /\ parse_lines init
       (filter (fun l => negb (isnil (Str.strip l)))
               ["function f(a)"; ""; "g(a)"; "end"])
     = parse_lines init ["function f(a)"; ""; "g(a)"; "end"].
Proof.
  apply (parse_ignores_padding [" "%char; "009"%char] "  "
           ["function f(a)"; ""; "g(a)"; "end"]); reflexivity.
Defined.

(** ** The architecture rule *)

Lemma in_skipn (n : nat) (l : text) (c : ascii) :
  In c (skipn n l) -> In c l.
Proof.
  revert l; induction n as [|n IH]; intros [|d l]; cbn [skipn]; try easy.
  intros H. right. now apply IH.
Qed.

Lemma startswith_head (c : ascii) (s : text) :
  Str.startswith [c] s = true -> In c s.
Proof.
  destruct s as [|d s]; cbn [Str.startswith]; [discriminate|].
  rewrite andb_true_r. intros H. apply Ascii.eqb_eq in H. now left.
Qed.

Lemma no_way_nil (l : list way) : (forall w, ~ In w l) -> l = [].
Proof.
  destruct l as [|w l]; [reflexivity|]. intros H. exfalso.
  apply (H w). now left.
Qed.

Lemma architecture_match (a junk : text) :
  a <> [] -> ~ In LF a -> ~ In "]"%char junk ->
  re_match architecture_pattern ("#!arch[" ++ a ++ "]" ++ junk) = Some [a].
Proof.
  intros Hne Hlf Hj.
  eassert (H : hd_error (run architecture_pattern true
                           ("#!arch[" ++ a ++ "]" ++ junk))
               = Some (_, _, _)).
  { unfold architecture_pattern.
    eapply hd_seq; [apply hd_lit|].
    apply (hd_rep_backtrack Dot 1 (Lit "]") a ("]" ++ junk)).
    - now apply no_LF_dot.
    - destruct a; [contradiction | simpl; lia].
    - intros [|j] [Hj1 _]; [lia|]. cbn [app skipn run].
      destruct (Str.startswith "]" (skipn j junk)) eqn:E; [|reflexivity].
      apply startswith_head, in_skipn in E. contradiction.
    - apply (hd_lit "]"). }
  apply re_match_hd in H. exact H.
Qed.

(** X6.  On a line [#!arch[], some text [a], [], and more text without a
    closing bracket, the architecture rule stores [a] as it is written,
    replacing what was stored before; [a] is any non-empty text (it may hold
    brackets itself), so what is stored is the text up to the last closing
    bracket of the line. *)
Theorem architecture_stored_verbatim
    (self : LuaASMParser) (a junk : text) :
  a <> [] -> ~ In LF a -> ~ In "]"%char junk ->
  classify self ("#!arch[" ++ a ++ "]" ++ junk)
  = Ok (set_architecture self (Some a)).
Proof.
  intros Hne Hlf Hj.
  change (classify self ("#!arch[" ++ a ++ "]" ++ junk))
    with (_parse_architecture self ("#!arch[" ++ a ++ "]" ++ junk)).
  unfold _parse_architecture. now rewrite architecture_match.
Qed.

Lemma architecture_stored_verbatim_witness :
  classify (set_architecture init (Some "x16")) "#!arch[X64] wide"
  = Ok (set_architecture (set_architecture init (Some "x16")) (Some "X64"))
  /\ classify init "#!arch[a]b]" = Ok (set_architecture init (Some "a]b")).
Proof.
  split.
  - apply (architecture_stored_verbatim
             (set_architecture init (Some "x16")) "X64" " wide");
      [discriminate| |];
      intros H; repeat (destruct H as [H|H]; [discriminate H|]); exact H.
  - apply (architecture_stored_verbatim init "a]b" "");
      [discriminate| |];
      intros H; repeat (destruct H as [H|H]; [discriminate H|]); exact H.
Defined.

(** X7.  A line that begins with [#!arch[] and has no closing bracket after
    at least one character (no bracket at all, or [#!arch[]] with nothing
    inside) makes the architecture rule raise a [SyntaxError] that carries
    the line. *)
Theorem architecture_needs_text_and_bracket
    (self : LuaASMParser) (rest : text) :
  ~ In "]"%char (skipn 1 rest) ->
  classify self ("#!arch[" ++ rest)
  = Raise (SyntaxError
             ("Invalid architecture definition: " ++ "#!arch[" ++ rest)).
Proof.
  intros Hno.
  change (classify self ("#!arch[" ++ rest))
    with (_parse_architecture self ("#!arch[" ++ rest)).
  unfold _parse_architecture.
  destruct (re_match architecture_pattern ("#!arch[" ++ rest)) as [g|] eqn:E;
    [|reflexivity].
  exfalso. apply re_match_inv in E as (m & s' & H).
  unfold architecture_pattern in H.
  apply run_seq_inv in H
    as (m1 & g1 & s1 & m2 & g2 & s2 & H1 & H & _).
  apply run_lit_inv in H1 as [_ E1].
  change (skipn (length "#!arch[") ("#!arch[" ++ rest)) with rest in E1.
  injection E1 as _ _ ->.
  apply run_seq_inv in H
    as (m3 & g3 & s3 & m4 & g4 & s4 & H1 & H & _).
  apply run_grp_inv in H1 as (a & ga & sa & H1 & E1).
  apply run_rep_taken in H1 as (a' & _ & Hlen & E2).
  injection E2 as _ _ ->. injection E1 as _ _ ->.
  apply run_lit_inv in H as [H _].
  apply startswith_head in H. apply Hno.
  destruct a' as [|c a']; [simpl in Hlen; lia|].
  destruct rest as [|d rest]; [destruct H|].
  cbn [length skipn] in *. now apply in_skipn in H.
Qed.

Lemma architecture_needs_text_and_bracket_witness :
  classify init "#!arch[]"
  = Raise (SyntaxError "Invalid architecture definition: #!arch[]")
  /\ classify init "#!arch[x86"
     = Raise (SyntaxError "Invalid architecture definition: #!arch[x86").
Proof.
  split.
  - apply (architecture_needs_text_and_bracket init "]"). intros [].
  - apply (architecture_needs_text_and_bracket init "x86").
    intros H. repeat (destruct H as [H|H]; [discriminate H|]). exact H.
Defined.

(** ** Lines that a rule claims by their first characters *)

Lemma no_match_of_lit (t : text) (r : regex) (s : text) :
  Str.startswith t s = false -> re_match (Lit t >> r) s = None.
Proof. intros H. unfold re_match. cbn [run]. now rewrite H. Qed.

Lemma startswith_app_both (p q s : text) :
  Str.startswith (p ++ q) (p ++ s) = Str.startswith q s.
Proof.
  induction p as [|c p IH]; cbn [app Str.startswith]; [reflexivity|].
  now rewrite Ascii.eqb_refl.
Qed.

Lemma startswith_shorter (p q s : text) :
  Str.startswith p s = false -> Str.startswith (p ++ q) s = false.
Proof.
  revert s; induction p as [|c p IH]; intros [|d s];
    cbn [app Str.startswith]; try easy.
  intros H. apply andb_false_iff in H as [H|H].
  - now rewrite H.
  - rewrite (IH s H). apply andb_false_r.
Qed.

(** X8.  The import and function rules take every line that begins with
    [import] or [function], also when the word goes on: unless a space
    follows the keyword, the line is rejected with a [SyntaxError].  So a
    call such as [importer(x)] or [functional(1)] is not recorded as a call;
    it aborts the translation. *)
Theorem keyword_prefix_rejected (self : LuaASMParser) (rest : text) :
  Str.startswith " " rest = false ->
  classify self ("import" ++ rest)
  = Raise (SyntaxError ("Invalid import statement: " ++ "import" ++ rest))
  /\ classify self ("function" ++ rest)
     = Raise (SyntaxError
                ("Invalid function definition: " ++ "function" ++ rest)).
Proof.
  intros H. split.
  - change (classify self ("import" ++ rest))
      with (_parse_import_definition self ("import" ++ rest)).
    unfold _parse_import_definition.
    unfold single_import_pattern, multi_import_pattern,
      local_import_pattern.
    rewrite !no_match_of_lit; [reflexivity | reflexivity | |].
    + change "import [" with ("import" ++ " " ++ "[").
      rewrite startswith_app_both. now apply startswith_shorter.
    + change "import " with ("import" ++ " ").
      now rewrite startswith_app_both.
  - change (classify self ("function" ++ rest))
      with (_parse_function_definition self ("function" ++ rest)).
    unfold _parse_function_definition, function_pattern.
    rewrite no_match_of_lit; [reflexivity|].
    change "function " with ("function" ++ " ").
    now rewrite startswith_app_both.
Qed.

Lemma keyword_prefix_rejected_witness :
  classify init "importer(x)"
  = Raise (SyntaxError "Invalid import statement: importer(x)")
  /\ classify init "functional(1)"
     = Raise (SyntaxError "Invalid function definition: functional(1)").
Proof.
  split.
  - apply (proj1 (keyword_prefix_rejected init "er(x)" eq_refl)).
  - apply (proj2 (keyword_prefix_rejected init "al(1)" eq_refl)).
Defined.

(** X9.  A line that begins with [#![] and does not go on with [start],
    [pad] or [sign] makes the directive rule raise a [SyntaxError] that
    carries the line. *)
Theorem unknown_directive_name_rejected
    (self : LuaASMParser) (rest : text) :
  Str.startswith "start" rest = false ->
  Str.startswith "pad" rest = false ->
  Str.startswith "sign" rest = false ->
  classify self ("#![" ++ rest)
  = Raise (SyntaxError ("Invalid directive format: " ++ "#![" ++ rest)).
Proof.
  intros H1 H2 H3.
  change (classify self ("#![" ++ rest))
    with (_parse_directive self ("#![" ++ rest)).
  unfold _parse_directive.
  destruct (re_match directive_pattern ("#![" ++ rest)) as [g|] eqn:E;
    [|reflexivity].
  exfalso. apply re_match_inv in E as (m & s' & H).
  unfold directive_pattern in H.
  apply run_seq_inv in H as (m1 & g1 & s1 & m2 & g2 & s2 & Hl & H & _).
  apply run_lit_inv in Hl as [_ El].
  change (skipn (length "#![") ("#![" ++ rest)) with rest in El.
  injection El as _ _ ->.
  apply run_seq_inv in H as (m3 & g3 & s3 & m4 & g4 & s4 & Hn & _ & _).
  apply run_grp_inv in Hn as (dn & gd & sd & Hn & _).
  apply run_alt_inv in Hn as [Hn|Hn];
    [|apply run_alt_inv in Hn as [Hn|Hn]];
    apply run_lit_inv in Hn as [Hn _]; congruence.
Qed.

Lemma unknown_directive_name_rejected_witness :
  classify init "#![origin(0x10)]"
  = Raise (SyntaxError "Invalid directive format: #![origin(0x10)]").
Proof.
  apply (unknown_directive_name_rejected init "origin(0x10)]");
    reflexivity.
Defined.

(** ** Calls *)

Lemma word_not_paren (c : ascii) :
  accepts Word c = true -> Ascii.eqb c "("%char = false.
Proof.
  intros H. destruct (Ascii.eqb c "("%char) eqn:E; [|reflexivity].
  apply Ascii.eqb_eq in E. subst c. discriminate H.
Qed.

Lemma word_not_hash (c : ascii) :
  accepts Word c = true -> Ascii.eqb "#"%char c = false.
Proof.
  intros H. destruct (Ascii.eqb "#"%char c) eqn:E; [|reflexivity].
  apply Ascii.eqb_eq in E. subst c. discriminate H.
Qed.

(** A keyword that is not a prefix of the callee is not a prefix of the
    call line either. *)
Lemma startswith_keyword_call (p c rest : text) :
  Forall (fun x => accepts Word x = true) p ->
  Str.startswith p c = false ->
  Str.startswith p (c ++ "(" ++ rest) = false.
Proof.
  intros Hp. revert c. induction Hp as [|x p Hx Hp IH]; intros c H;
    [discriminate|].
  destruct c as [|d c]; cbn [app Str.startswith] in *.
  - now rewrite (word_not_paren x Hx).
  - apply andb_false_iff in H as [H|H]; [now rewrite H|].
    rewrite (IH c H). apply andb_false_r.
Qed.

Lemma call_pattern_match (c args : text) :
  is_identifier c = true -> ~ In LF args ->
  matched (re_match call_pattern (c ++ "(" ++ args ++ ")")) = true.
Proof.
  intros Hc Hlf. apply is_identifier_inv in Hc as [Hc Hcl].
  apply matched_of_way with (w := ([] ++ c ++ "(" ++ args ++ ")" ++ [],
                                   [] ++ [] ++ [] ++ [] ++ [] ++ [], [])).
  unfold call_pattern.
  apply in_run_seq with (s1 := c ++ "(" ++ args ++ ")"); [now left|].
  apply in_run_seq with (s1 := "(" ++ args ++ ")");
    [now apply in_run_rep|].
  apply in_run_seq with (s1 := args ++ ")"); [apply (in_run_lit "(")|].
  apply in_run_seq with (s1 := ")").
  - apply in_run_rep; [now apply no_LF_dot | apply Nat.le_0_l].
  - apply in_run_seq with (s1 := []); [apply (in_run_lit ")" [])|now left].
Qed.

Lemma is_callee_inv (c : text) :
  is_callee c = true ->
  is_identifier c = true
  /\ Str.startswith "import" c = false
  /\ Str.startswith "function" c = false.
Proof.
  unfold is_callee. intros H.
  apply andb_true_iff in H as [H Hf]. apply andb_true_iff in H as [Hi Him].
  apply negb_true_iff in Hf, Him. now repeat split.
Qed.

Lemma call_line (self : LuaASMParser) (c args : text) :
  is_callee c = true -> ~ In LF args ->
  classify self (c ++ "(" ++ args ++ ")")
  = Ok (_parse_function_call self (c ++ "(" ++ args ++ ")")).
Proof.
  intros Hc Hlf. apply is_callee_inv in Hc as (Hid & Him & Hfu).
  unfold classify.
  rewrite (startswith_keyword_call "import" c (args ++ ")"))
    by (try exact Him; repeat constructor).
  rewrite (startswith_keyword_call "function" c (args ++ ")"))
    by (try exact Hfu; repeat constructor).
  rewrite (call_pattern_match c args Hid Hlf).
  destruct (is_identifier_inv c Hid) as [Hw Hl].
  destruct c as [|d c]; [simpl in Hl; lia|].
  inversion Hw as [|? ? Hd _]; subst.
  cbn [app Str.startswith]. rewrite (word_not_hash d Hd). cbn [andb].
  match goal with
  | |- context [teqb ?l "end"] =>
      assert (Hend : teqb l "end" = false); [|now rewrite Hend]
  end.
  apply teqb_neq. intros E.
  assert (Hin : In "("%char (d :: c ++ "(" ++ args ++ ")"))
    by (right; apply in_or_app; right; now left).
  cbn [app] in Hin. rewrite E in Hin.
  repeat (destruct Hin as [Hin|Hin]; [discriminate Hin|]). exact Hin.
Qed.

Lemma strip_call (c args : text) :
  is_identifier c = true ->
  Str.strip (c ++ "(" ++ args ++ ")") = c ++ "(" ++ args ++ ")".
Proof.
  intros Hc. destruct (is_identifier_inv c Hc) as [Hw Hl].
  destruct c as [|d c]; [simpl in Hl; lia|].
  inversion Hw as [|? ? Hd _]; subst.
  replace ((d :: c) ++ "(" ++ args ++ ")")
    with (d :: (c ++ "(" ++ args) ++ [")"%char])
    by (cbn [app]; now rewrite <- !app_assoc).
  apply strip_between; [now apply word_not_space | reflexivity].
Qed.

(** X10.  Call lines [c(args)], with [c] an identifier that does not begin
    with [import] or [function], are recorded in source order, and in one
    place only: in the body of the open function when there is one (then
    [code_outside_functions] does not change), else in
    [code_outside_functions]. *)
Theorem calls_routed (calls : list (text * text)) :
  Forall (fun ca => is_callee (fst ca) = true /\ ~ In LF (snd ca)) calls ->
  forall self,
    parse_lines self (map call_text calls)
    = Ok match current_function self with
         | Some f =>
             set_current_function self
               (Some {| name := name f; params := params f;
                        body := body f ++ map call_text calls |})
         | None =>
             set_code_outside_functions self
               (code_outside_functions self ++ map call_text calls)
         end.
Proof.
  induction 1 as [|[c args] calls [Hc Hlf] _ IH]; intros self.
  - cbn [map parse_lines]. destruct self as [a d f [[n p b]|] o i s];
      cbn; now rewrite app_nil_r.
  - cbn [fst snd] in Hc, Hlf. cbn [map parse_lines].
    change (call_text (c, args)) with (c ++ "(" ++ args ++ ")").
    destruct (is_callee_inv c Hc) as (Hid & _ & _).
    rewrite (strip_call c args Hid).
    replace (isnil (c ++ "(" ++ args ++ ")")) with false
      by (destruct c; [discriminate Hid | reflexivity]).
    rewrite (call_line self c args Hc Hlf). cbn [bind]. rewrite IH.
    unfold _parse_function_call. rewrite (strip_call c args Hid).
    destruct (current_function self) as [f|] eqn:Ec;
      cbn [current_function set_current_function
           set_code_outside_functions code_outside_functions
           name params body];
      rewrite ?Ec, <- app_assoc; reflexivity.
Qed.

Lemma calls_routed_witness :
  parse_lines init ["add(1, 2)"; "halt()"]
  = Ok (set_code_outside_functions init ["add(1, 2)"; "halt()"])
  /\ parse_lines
       (set_current_function init
          (Some {| name := "f"; params := []; body := [] |}))
       ["add(1, 2)"; "halt()"]
     = Ok (set_current_function init
             (Some {| name := "f"; params := [];
                      body := ["add(1, 2)"; "halt()"] |})).
Proof.
  assert (H : Forall (fun ca => is_callee (fst ca) = true
                                /\ ~ In LF (snd ca))
                     [("add", "1, 2"); ("halt", "")]).
  { repeat constructor; cbn [snd]; intros H;
      repeat (destruct H as [H|H]; [discriminate H|]); exact H. }
  split.
  - apply (calls_routed [("add", "1, 2"); ("halt", "")] H init).
  - apply (calls_routed [("add", "1, 2"); ("halt", "")] H
             (set_current_function init
                (Some {| name := "f"; params := []; body := [] |}))).
Defined.

(** ** Functions that are not closed *)

Lemma open_function_lines (self : LuaASMParser) (f args : text)
    (middle : list text) :
  is_identifier f = true -> ~ In LF args ->
  (forall l, In l middle -> plain_line l) ->
  exists self' ps b,
    parse_lines self (("function " ++ f ++ "(" ++ args ++ ")") :: middle)
    = Ok self'
    /\ functions self' = functions self
    /\ current_function self'
       = Some {| name := f; params := ps; body := b |}.
Proof.
  intros Hf Hlf Hplain. cbn [parse_lines].
  rewrite strip_function_line.
  change (isnil ("function " ++ f ++ "(" ++ args ++ ")")) with false.
  cbv iota.
  rewrite (function_line self f args Hf Hlf). cbn [bind].
  destruct (parse_lines_middle middle Hplain
              (set_current_function self
                 (Some {| name := f;
                          params := if isnil args then []
                                    else map Str.strip
                                           (Str.split ","%char args);
                          body := [] |})) _ eq_refl)
    as (self' & b & Hp & Hfun & Hcur).
  eexists self', _, b. split; [exact Hp|]. split; [exact Hfun|exact Hcur].
Qed.

(** X11.  Only [end] records a function.  A [function] line followed by
    plain lines and no [end] leaves the function table as it was, so the
    function is never emitted; if a second [function] line comes before the
    [end], the [end] records the second function and the first is lost.  An
    [end] with no function open changes nothing. *)
Theorem unclosed_function_dropped
    (self : LuaASMParser) (f args : text) (middle : list text) :
  is_identifier f = true -> ~ In LF args ->
  (forall l, In l middle -> plain_line l) ->
  (exists self',
      parse_lines self (("function " ++ f ++ "(" ++ args ++ ")") :: middle)
      = Ok self'
      /\ functions self' = functions self)
  /\ (forall g args2 middle2,
         is_identifier g = true -> ~ In LF args2 ->
         (forall l, In l middle2 -> plain_line l) ->
         exists self' ps b,
           parse_lines self
             ((("function " ++ f ++ "(" ++ args ++ ")") :: middle)
              ++ ("function " ++ g ++ "(" ++ args2 ++ ")")
                   :: middle2 ++ ["end"])
           = Ok self'
           /\ functions self'
              = dict_set (functions self) g
                  {| name := g; params := ps; body := b |})
  /\ (current_function self = None -> parse_lines self ["end"] = Ok self).
Proof.
  intros Hf Hlf Hplain.
  destruct (open_function_lines self f args middle Hf Hlf Hplain)
    as (s1 & ps1 & b1 & Hp1 & Hfun1 & _).
  split; [now exists s1|]. split.
  - intros g args2 middle2 Hg Hlf2 Hplain2.
    rewrite parse_lines_app, Hp1. cbn [bind].
    destruct (function_block s1 ("function " ++ g ++ "(" ++ args2 ++ ")")
                {| name := g;
                   params := if isnil args2 then []
                             else map Str.strip (Str.split ","%char args2);
                   body := [] |} middle2)
      as (s2 & b2 & Hp2 & Hfun2 & _).
    + apply strip_function_line.
    + discriminate.
    + apply (function_line s1 g args2 Hg Hlf2).
    + exact Hplain2.
    + eexists s2, _, b2. split; [exact Hp2|].
      rewrite Hfun2, Hfun1. reflexivity.
  - intros Hnone.
    change (parse_lines self ["end"]) with (Ok (_end_function_definition self)).
    unfold _end_function_definition. now rewrite Hnone.
Qed.

Lemma unclosed_function_dropped_witness :
  (exists self',
      parse_lines init ["function f(a)"; "g(a)"] = Ok self'
      /\ functions self' = [])
  /\ (exists self' ps b,
         parse_lines init
           ["function f(a)"; "g(a)"; "function h()"; "end"]
         = Ok self'
         /\ functions self'
            = [("h", {| name := "h"; params := ps; body := b |})])
  /\ parse_lines init ["end"] = Ok init.
Proof.
  assert (Hplain : forall l, In l ["g(a)"] -> plain_line l).
  { intros l [<-|[]]. split; [reflexivity|]. split; [discriminate|].
    intros self. eexists. reflexivity. }
  assert (Ha : ~ In LF "a")
    by (intros H; repeat (destruct H as [H|H]; [discriminate H|]); exact H).
  destruct (unclosed_function_dropped init "f" "a" ["g(a)"] eq_refl Ha Hplain)
    as (H1 & H2 & H3).
  split; [exact H1|]. split; [|exact (H3 eq_refl)].
  destruct (H2 "h" "" [] eq_refl (fun H => H) (fun l H => match H with end))
    as (s & ps & b & Hp & Hf).
  now exists s, ps, b.
Defined.

(** ** Imports *)

Lemma split_never_nil (sep : ascii) (s : text) : Str.split sep s <> [].
Proof.
  induction s as [|c s IH]; cbn [Str.split]; [discriminate|].
  destruct (Ascii.eqb c sep); [discriminate|].
  destruct (Str.split sep s); [contradiction | discriminate].
Qed.

Lemma strip_split_space (s : text) :
  map Str.strip (Str.split ","%char (" " ++ s))
  = map Str.strip (Str.split ","%char s).
Proof.
  cbn [app Str.split].
  change (Ascii.eqb " "%char ","%char) with false. cbv iota.
  destruct (Str.split ","%char s) as [|l ls] eqn:E;
    [now apply split_never_nil in E|].
  cbn [map]. f_equal.
Qed.

Lemma forallb_identifier_inv (ns : list text) :
  forallb is_identifier ns = true ->
  Forall (fun n => Forall (fun c => accepts Word c = true) n
                   /\ 1 <= length n) ns.
Proof.
  intros H. apply Forall_forall. intros n Hn.
  rewrite forallb_forall in H. now apply is_identifier_inv, H.
Qed.

(** The name list [a, b, c] splits back into its names. *)
Lemma split_join_names (ns : list text) :
  forallb is_identifier ns = true -> ns <> [] ->
  map Str.strip (Str.split ","%char (Str.join ", " ns)) = ns.
Proof.
  intros H Hne. apply forallb_identifier_inv in H.
  destruct ns as [|n ns]; [contradiction|]. clear Hne.
  revert n H. induction ns as [|n' ns IH]; intros n H;
    inversion H as [|? ? [Hn _] Hns]; subst.
  - cbn [Str.join]. rewrite (split_word n Hn). cbn [map].
    now rewrite (strip_word n Hn).
  - change (Str.join ", " (n :: n' :: ns))
      with (n ++ "," ++ " " ++ Str.join ", " (n' :: ns)).
    rewrite (split_word_comma n _ Hn). cbn [map].
    now rewrite (strip_word n Hn), strip_split_space, (IH n' Hns).
Qed.

Lemma join_names_no_LF (ns : list text) :
  forallb is_identifier ns = true -> ~ In LF (Str.join ", " ns).
Proof.
  intros H. apply forallb_identifier_inv in H.
  induction H as [|n ns [Hn _] Hns IH]; [easy|].
  assert (Hn' : ~ In LF n).
  { intros Hin. rewrite Forall_forall in Hn.
    now apply (word_not_LF LF (Hn LF Hin)). }
  destruct ns as [|n' ns]; [exact Hn'|].
  change (Str.join ", " (n :: n' :: ns))
    with (n ++ ", " ++ Str.join ", " (n' :: ns)).
  intros Hin. apply in_app_or in Hin as [Hin|Hin]; [contradiction|].
  destruct Hin as [Hin|[Hin|Hin]]; try discriminate Hin. contradiction.
Qed.

Lemma fold_set_other (m : text) (ns : list text) :
  forall (d : dict text) k,
    ~ In k ns ->
    dict_get (fold_left (fun d func => dict_set d func m) ns d) k
    = dict_get d k.
Proof.
  induction ns as [|n ns IH]; intros d k Hk; cbn [fold_left];
    [reflexivity|].
  rewrite IH by (intros H; apply Hk; now right).
  apply dict_get_set_other. intros ->. apply Hk. now left.
Qed.

Lemma fold_set_bound (m : text) (ns : list text) :
  forall (d : dict text) n,
    In n ns ->
    dict_get (fold_left (fun d func => dict_set d func m) ns d) n = Some m.
Proof.
  induction ns as [|n0 ns IH]; intros d n Hn; [easy|]. cbn [fold_left].
  destruct (text_in_dec n ns) as [Hin|Hout]; [now apply IH|].
  rewrite fold_set_other by exact Hout.
  destruct Hn as [->|Hn]; [apply dict_get_set_same | contradiction].
Qed.

(** X12.  An import line binds what it names and nothing else.  After
    [import f from m] the table maps [f] to [m]; after [import [n1, n2, ...]
    from m] every listed name maps to [m]; in both cases the names that are
    not listed keep the module they had (or stay unbound), and a name that
    was bound before is rebound. *)
Theorem import_binds_listed_names
    (self : LuaASMParser) (f m : text) (ns : list text) :
  is_identifier f = true -> is_identifier m = true ->
  forallb is_identifier ns = true -> ns <> [] ->
  (exists self',
      classify self ("import " ++ f ++ " from " ++ m) = Ok self'
      /\ dict_get (imports self') f = Some m
      /\ forall k, k <> f ->
           dict_get (imports self') k = dict_get (imports self) k)
  /\ (exists self',
         classify self ("import [" ++ Str.join ", " ns ++ "] from " ++ m)
         = Ok self'
         /\ (forall n, In n ns -> dict_get (imports self') n = Some m)
         /\ forall k, ~ In k ns ->
              dict_get (imports self') k = dict_get (imports self) k).
Proof.
  intros Hf Hm Hns Hne. split.
  - exists (set_imports self (dict_set (imports self) f m)). split.
    + pose proof (single_import_with_trailing self f m [] Hf Hm eq_refl)
        as H.
      now rewrite app_nil_r in H.
    + cbn [imports set_imports]. split.
      * apply dict_get_set_same.
      * intros k Hk. now apply dict_get_set_other.
  - exists (set_imports self
              (fold_left (fun d func => dict_set d func m) ns
                         (imports self))).
    split.
    + assert (Hj : Str.join ", " ns <> []).
      { destruct ns as [|n ns]; [contradiction|].
        cbn [forallb] in Hns. apply andb_true_iff in Hns as [Hn _].
        destruct n; [discriminate Hn|]. destruct ns; discriminate. }
      pose proof (multi_import_with_trailing self (Str.join ", " ns) m []
                    Hj (join_names_no_LF ns Hns) Hm eq_refl eq_refl) as H.
      rewrite app_nil_r, (split_join_names ns Hns Hne) in H. exact H.
    + cbn [imports set_imports]. split.
      * intros n Hn. now apply fold_set_bound.
      * intros k Hk. now apply fold_set_other.
Qed.

Lemma import_binds_listed_names_witness :
  (exists self',
      classify (set_imports init [("f", "old"); ("g", "lib")])
        "import f from m"
      = Ok self'
      /\ dict_get (imports self') "f" = Some "m"
      /\ dict_get (imports self') "g" = Some "lib")
  /\ (exists self',
         classify (set_imports init [("f", "old"); ("g", "lib")])
           "import [a, f, b] from m"
         = Ok self'
         /\ dict_get (imports self') "a" = Some "m"
         /\ dict_get (imports self') "f" = Some "m"
         /\ dict_get (imports self') "g" = Some "lib").
Proof.
  destruct (import_binds_listed_names
              (set_imports init [("f", "old"); ("g", "lib")])
              "f" "m" ["a"; "f"; "b"] eq_refl eq_refl eq_refl
              ltac:(discriminate))
    as [(s1 & Hc1 & Hf1 & Ho1) (s2 & Hc2 & Hin2 & Ho2)].
  split.
  - exists s1. split; [exact Hc1|]. split; [exact Hf1|].
    rewrite (Ho1 "g") by discriminate. reflexivity.
  - exists s2. split; [exact Hc2|]. split; [|split].
    + apply Hin2. now left.
    + apply Hin2. right. now left.
    + rewrite (Ho2 "g"); [reflexivity|].
      intros H. repeat (destruct H as [H|H]; [discriminate H|]). exact H.
Defined.

(** ** Generation *)

Lemma inline_asm_rule_envelope (self : LuaASMParser) (mid : text) :
  _parse_inline_asm self ("asm(" ++ mid ++ ")")
  = Ok (set_inline_asm self (inline_asm self ++ [Str.strip mid])).
Proof.
  unfold _parse_inline_asm.
  change (Str.startswith "asm(" ("asm(" ++ mid ++ ")")) with true.
  replace (Str.endswith ")" ("asm(" ++ mid ++ ")")) with true.
  - cbn [andb]. unfold Str.slice_4_m1.
    change (skipn 4 ("asm(" ++ mid ++ ")")) with (mid ++ ")").
    now rewrite removelast_last.
  - symmetry. rewrite (app_assoc "asm(" mid ")"). apply endswith_app.
Qed.

Lemma emit_inline_asm_step (fuel : nat) (self : LuaASMParser) (i : nat)
    (output : list out_line) :
  emit_inline_asm (S fuel) self i output
  = match nth_error (inline_asm self) i with
    | None => Some (Ok (self, output))
    | Some asm =>
        match _parse_inline_asm self asm with
        | Ok self' => emit_inline_asm fuel self' (S i) (output ++ [None])
        | Raise e => Some (Raise e)
        end
    end.
Proof. reflexivity. Qed.

(** X13.  [generate_code] cannot get past a non-empty [inline_asm]: it
    always raises a [SyntaxError] and returns no text.  The loop runs over
    the list while [_parse_inline_asm] appends to it, so an entry that is in
    the [asm( ... )] envelope does not save the run: the fragment appended
    for it is visited next, and with one entry [asm(mid)] whose stripped
    inside is not in the envelope the error names that inside. *)
Theorem inline_asm_always_rejected (self : LuaASMParser) :
  has_directives self = true ->
  (inline_asm self <> [] ->
   exists msg, generate_code self = Some (Raise (SyntaxError msg)))
  /\ (forall mid,
         inline_asm self = ["asm(" ++ mid ++ ")"] ->
         in_envelope (Str.strip mid) = false ->
         generate_code self
         = Some (Raise (SyntaxError
                          ("Invalid inline assembly format: "
                           ++ Str.strip mid)))).
Proof.
  intros Hd. split; [now apply generate_code_inline_asm_fails|].
  intros mid Hl He. unfold generate_code, generate_code_fuel.
  destruct (emit_start_ok self (emit_bits self []) Hd) as [out ->].
  rewrite Hl. cbn [weight fold_right Nat.add].
  rewrite emit_inline_asm_step, Hl. cbn [nth_error].
  rewrite inline_asm_rule_envelope, Hl, emit_inline_asm_step.
  cbn [inline_asm set_inline_asm app nth_error].
  unfold _parse_inline_asm. unfold in_envelope in He. now rewrite He.
Qed.

Lemma inline_asm_always_rejected_witness :
  (exists msg,
      generate_code (set_inline_asm init ["asm(asm(nop))"; "asm(ret)"])
      = Some (Raise (SyntaxError msg)))
  /\ generate_code (set_inline_asm init ["asm( mov eax, 1 )"])
     = Some (Raise (SyntaxError "Invalid inline assembly format: mov eax, 1")).
Proof.
  split.
  - apply (proj1 (inline_asm_always_rejected
                    (set_inline_asm init ["asm(asm(nop))"; "asm(ret)"])
                    eq_refl)).
    discriminate.
  - apply (proj2 (inline_asm_always_rejected
                    (set_inline_asm init ["asm( mov eax, 1 )"]) eq_refl)
             " mov eax, 1 "); reflexivity.
Defined.

Lemma parse_inline_asm_same (s1 s2 : LuaASMParser) (asm : text) :
  same_for_generation s1 s2 ->
  match _parse_inline_asm s1 asm, _parse_inline_asm s2 asm with
  | Ok a, Ok b => same_for_generation a b
  | Raise e1, Raise e2 => e1 = e2
  | _, _ => False
  end.
Proof.
  intros (Ha & Hd & Hf & Hc & Hi). unfold _parse_inline_asm.
  destruct (Str.startswith "asm(" asm && Str.endswith ")" asm);
    [|reflexivity].
  unfold same_for_generation.
  cbn [architecture directives functions code_outside_functions inline_asm
       set_inline_asm].
  rewrite Hi. now repeat split.
Qed.

Lemma emit_inline_asm_same (fuel : nat) :
  forall s1 s2 i output,
    same_for_generation s1 s2 ->
    match emit_inline_asm fuel s1 i output,
          emit_inline_asm fuel s2 i output with
    | None, None => True
    | Some (Raise e1), Some (Raise e2) => e1 = e2
    | Some (Ok (a, o1)), Some (Ok (b, o2)) =>
        same_for_generation a b /\ o1 = o2
    | _, _ => False
    end.
Proof.
  induction fuel as [|fuel IH]; intros s1 s2 i output Hs; [exact I|].
  rewrite !emit_inline_asm_step.
  destruct Hs as (Ha & Hd & Hf & Hc & Hi). rewrite Hi.
  destruct (nth_error (inline_asm s2) i) as [asm|].
  - pose proof (parse_inline_asm_same s1 s2 asm
                  (conj Ha (conj Hd (conj Hf (conj Hc Hi))))) as Hp.
    destruct (_parse_inline_asm s1 asm) as [a|e1],
             (_parse_inline_asm s2 asm) as [b|e2]; try contradiction.
    + now apply IH.
    + exact Hp.
  - now repeat split.
Qed.

(** X14.  [generate_code] reads the architecture, the directives, the
    function table, the free statements and [inline_asm], and nothing else:
    two parser objects that agree on these give the same text or the same
    exception.  The imports table and a function that was opened and not
    closed have no effect on the output. *)
Theorem generation_ignores_imports (s1 s2 : LuaASMParser) :
  same_for_generation s1 s2 -> generate_code s1 = generate_code s2.
Proof.
  intros Hs. pose proof Hs as (Ha & Hd & Hf & Hc & Hi).
  unfold generate_code, generate_code_fuel, emit_bits, emit_start,
    emit_free, emit_functions.
  rewrite Ha, Hd, Hf, Hc, Hi.
  destruct (dict_item (directives s2) "start") as [start|e];
    [|reflexivity].
  cbn [bind].
  match goal with
  | |- context [emit_inline_asm ?n s1 0 ?o] =>
      pose proof (emit_inline_asm_same n s1 s2 0 o Hs) as He;
      destruct (emit_inline_asm n s1 0 o) as [[[a o1]|e1]|],
               (emit_inline_asm n s2 0 o) as [[[b o2]|e2]|];
      try contradiction
  end.
  - destruct He as [(_ & Hd' & _) ->]. unfold emit_trailer.
    now rewrite Hd'.
  - now subst.
  - reflexivity.
Qed.

Lemma generation_ignores_imports_witness :
  generate_code
    (set_current_function
       (set_imports init [("f", "m")])
       (Some {| name := "g"; params := ["a"]; body := ["h(a)"] |}))
  = generate_code init.
Proof.
  apply generation_ignores_imports. repeat split.
Defined.

(** ** Empty sources and repeated directives *)

Lemma dropwhile_all (f : ascii -> bool) (s : text) :
  forallb f s = true -> Str.dropwhile f s = [].
Proof.
  induction s as [|c s IH]; cbn [forallb Str.dropwhile]; [reflexivity|].
  intros H. apply andb_true_iff in H as [Hc Hs]. rewrite Hc. now apply IH.
Qed.

(** X15.  A source text of white space only (the empty text too) has no
    line to parse: [parse] returns the new parser object unchanged, and
    [main] writes the six lines of the entry section and nothing else. *)
Theorem blank_source_gives_entry_section (code : text) :
  forallb Str.isspace code = true ->
  parse init code = Ok init
  /\ main code
     = Some (Written (Str.join [LF]
                        ["_start:"; "  push 2"; "  push 3"; "  push 5";
                         "  call add"; "  add esp, 12"])).
Proof.
  intros H.
  assert (Hp : parse init code = Ok init).
  { unfold parse, Str.strip, Str.lstrip.
    now rewrite (dropwhile_all Str.isspace code H). }
  split; [exact Hp|]. unfold main. rewrite Hp. reflexivity.
Qed.

Lemma blank_source_gives_entry_section_witness :
  main [" "%char; LF; "009"%char; CR; LF]
  = Some (Written (Str.join [LF]
                     ["_start:"; "  push 2"; "  push 3"; "  push 5";
                      "  call add"; "  add esp, 12"])).
Proof.
  apply (blank_source_gives_entry_section
           [" "%char; LF; "009"%char; CR; LF]).
  reflexivity.
Defined.

Lemma strip_directive_line (dname value : text) :
  Str.strip ("#![" ++ dname ++ "(" ++ value ++ ")]")
  = "#![" ++ dname ++ "(" ++ value ++ ")]".
Proof.
  replace ("#![" ++ dname ++ "(" ++ value ++ ")]")
    with ("#"%char :: ("![" ++ dname ++ "(" ++ value ++ ")") ++ ["]"%char])
    by (rewrite <- !app_assoc; reflexivity).
  now apply strip_between.
Qed.

Lemma dict_set_twice {V : Type} (d : dict V) (k : text) (v1 v2 : V) :
  dict_set (dict_set d k v1) k v2 = dict_set d k v2.
Proof.
  induction d as [|[k' v'] d IH]; cbn [dict_set].
  - now rewrite teqb_refl.
  - destruct (teqb k' k) eqn:E; cbn [dict_set]; rewrite E;
      [reflexivity | now rewrite IH].
Qed.

(** X16.  Declaring a directive twice is declaring it once with the second
    value.  After [#![d(v1)]] and [#![d(v2)]], with [d] one of [start],
    [pad], [sign] and [v1], [v2] numerals, the parser object is the one that
    [#![d(v2)]] alone gives (so [generate_code] returns the same for both):
    [directives[d]] is [v2] as written, the other directives keep their
    values, and the six other fields are as before. *)
Theorem directive_last_value_wins
    (self : LuaASMParser) (dname v1 v2 : text) :
  In dname ["start"; "pad"; "sign"] ->
  is_numeral v1 = true -> is_numeral v2 = true ->
  exists self',
    parse_lines self ["#![" ++ dname ++ "(" ++ v1 ++ ")]";
                      "#![" ++ dname ++ "(" ++ v2 ++ ")]"]
    = Ok self'
    /\ parse_lines self ["#![" ++ dname ++ "(" ++ v2 ++ ")]"] = Ok self'
    /\ dict_get (directives self') dname = Some (Some v2)
    /\ (forall k, k <> dname ->
                  dict_get (directives self') k = dict_get (directives self) k)
    /\ architecture self' = architecture self
    /\ functions self' = functions self
    /\ current_function self' = current_function self
    /\ code_outside_functions self' = code_outside_functions self
    /\ imports self' = imports self
    /\ inline_asm self' = inline_asm self.
Proof.
  intros Hd H1 H2.
  assert (Hline : forall s v,
             is_numeral v = true ->
             parse_lines s ["#![" ++ dname ++ "(" ++ v ++ ")]"]
             = Ok (set_directives s
                     (dict_set (directives s) dname (Some v)))).
  { intros s v Hv. cbn [parse_lines]. rewrite strip_directive_line.
    change (isnil ("#![" ++ dname ++ "(" ++ v ++ ")]")) with false.
    cbv iota.
    pose proof (directive_with_trailing s dname v [] Hd Hv) as H.
    rewrite app_nil_r in H. now rewrite H. }
  exists (set_directives self (dict_set (directives self) dname (Some v2))).
  split.
  - change ["#![" ++ dname ++ "(" ++ v1 ++ ")]";
            "#![" ++ dname ++ "(" ++ v2 ++ ")]"]
      with (["#![" ++ dname ++ "(" ++ v1 ++ ")]"]
            ++ ["#![" ++ dname ++ "(" ++ v2 ++ ")]"]).
    rewrite parse_lines_app, (Hline self v1 H1). cbn [bind].
    rewrite (Hline _ v2 H2). cbn [directives set_directives].
    now rewrite dict_set_twice.
  - split; [apply (Hline self v2 H2)|].
    cbn [directives set_directives]. split; [apply dict_get_set_same|].
    split; [intros k Hk; now apply dict_get_set_other|].
    now repeat split.
Qed.

Lemma directive_last_value_wins_witness :
  exists self',
    parse_lines (set_imports init [("f", "m")])
      ["#![pad(512)]"; "#![pad(0x100)]"]
    = Ok self'
    /\ parse_lines (set_imports init [("f", "m")]) ["#![pad(0x100)]"]
       = Ok self'
    /\ dict_get (directives self') "pad" = Some (Some "0x100")
    /\ dict_get (directives self') "sign" = Some None
    /\ imports self' = [("f", "m")].
Proof.
  destruct (directive_last_value_wins (set_imports init [("f", "m")])
              "pad" "512" "0x100" ltac:(right; left; reflexivity)
              eq_refl eq_refl)
    as (s & Hp & Hp1 & Hv & Ho & _ & _ & _ & _ & Hi & _).
  exists s. split; [exact Hp|]. split; [exact Hp1|]. split; [exact Hv|].
  split; [|exact Hi].
  rewrite (Ho "sign") by discriminate. reflexivity.
Defined.

(** ** One line, one table *)

Lemma set_nothing (self : LuaASMParser) :
  self = set_current_function (set_functions self (functions self))
           (current_function self).
Proof. now destruct self. Qed.

(** X17.  A line that is accepted rewrites one part of the parser object
    and leaves the rest as it is: the imports, or the architecture, or the
    directives, or the function table together with the open function, or
    the free statements, or [inline_asm].  No line touches two of them. *)
Theorem line_changes_one_table
    (self self' : LuaASMParser) (line : text) :
  classify self line = Ok self' ->
  (exists i, self' = set_imports self i)
  \/ (exists a, self' = set_architecture self a)
  \/ (exists d, self' = set_directives self d)
  \/ (exists f c, self' = set_current_function (set_functions self f) c)
  \/ (exists c, self' = set_code_outside_functions self c)
  \/ (exists a, self' = set_inline_asm self a).
Proof.
  intros H. apply classify_cases in H
    as [(i & ->) | [(a & _ & _ & ->) | [(dn & v & _ & _ & ->) |
       [(f & ps & _ & ->) | [-> | [-> | [(a & ->) | ->]]]]]]].
  - left. now exists i.
  - right; left. now eexists.
  - right; right; left. now eexists.
  - right; right; right; left. exists (functions self). now eexists.
  - right; right; right; left. unfold _end_function_definition.
    destruct (current_function self) as [fd|] eqn:Ec.
    + now eexists _, _.
    + exists (functions self), None. rewrite <- Ec. apply set_nothing.
  - unfold _parse_function_call.
    destruct (current_function self) as [fd|].
    + right; right; right; left. exists (functions self). now eexists.
    + do 4 right. left. now eexists.
  - do 5 right. now exists a.
  - do 4 right. left. now eexists.
Qed.

Lemma line_changes_one_table_witness :
  (exists i, set_imports init [("f", "m")] = set_imports init i)
  \/ (exists a, set_imports init [("f", "m")] = set_architecture init a)
  \/ (exists d, set_imports init [("f", "m")] = set_directives init d)
  \/ (exists f c,
         set_imports init [("f", "m")]
         = set_current_function (set_functions init f) c)
  \/ (exists c,
         set_imports init [("f", "m")] = set_code_outside_functions init c)
  \/ (exists a, set_imports init [("f", "m")] = set_inline_asm init a).
Proof.
  apply (line_changes_one_table init (set_imports init [("f", "m")])
           "import f from m").
  reflexivity.
Defined.
